(** * NEU502B homework notebooks: design matrix, GLM contrasts, rank percentiles

    A shallow embedding of the code cells of [homework-1.ipynb] (polynomial
    detrending variables, experiment parameters, first-run boxcar regressors
    and their plotting loop) and of [homework-2.ipynb] (the session cell and
    [rank_percentile]), with the NumPy and SciPy functions they call.  The
    cells the notebook leaves blank (convolution with the HRF, detrending and
    stacking of the design matrix, least squares and contrasts) are modelled
    from the specification and marked as such.

    NumPy arrays of floats are modelled as lists of exact rationals ([Q]):
    rounding is abstracted; shapes, indices, raised exceptions and the order
    of the operations are kept.  What is stated about the notebook's cells
    are therefore shapes, errors, comparisons, bounds with a margin and
    values at exactly representable points; identities that the floating
    point code meets only up to rounding are not stated.  A 2-D array carries
    its [shape] next to its rows, as an [ndarray] does, so that a matrix with
    no row still has a column count. *)

From Stdlib Require Import String ZArith QArith Lia Lqa Bool Arith PeanoNat.
From Stdlib Require Import Orders OrdersEx Sorted Permutation Mergesort.
From Stdlib Require Import Setoid Morphisms List.
Import ListNotations.

(* ------------------------------------------------------------------ *)
(** ** Exceptions and the result monad *)

(** The Python exceptions the cells can raise, and the error kinds of the
    pipeline's taxonomy. *)
Inductive exn : Type :=
| ValueError
| IndexError
| InvalidInput
| ShapeMismatch
| RankDeficiency.

Inductive result (A : Type) : Type :=
| Ok (a : A)
| Raise (e : exn).

Arguments Ok {A} a.
Arguments Raise {A} e.

Definition bind {A B : Type} (r : result A) (k : A -> result B) : result B :=
  match r with
  | Ok a => k a
  | Raise e => Raise e
  end.

Declare Scope result_scope.
Delimit Scope result_scope with result.
Notation "x <- r ;; k" := (bind r (fun x => k))
  (at level 61, r at next level, right associativity) : result_scope.

Definition is_ok {A : Type} (r : result A) : bool :=
  match r with Ok _ => true | Raise _ => false end.

(* ------------------------------------------------------------------ *)
(** ** Arrays *)

(** 1-D float array. *)
Definition array := list Q.

(** 2-D float array: [shape] is [(rows, columns)], [rows] the row-major data. *)
Record ndarray : Type := mk_ndarray {
  shape : nat * nat;
  rows : list (list Q)
}.

Definition entry (m : ndarray) (t c : nat) : Q := nth c (nth t (rows m) []) 0%Q.

(** Pointwise equality of arrays up to equality of rationals. *)
Definition array_eq : array -> array -> Prop := Forall2 Qeq.
Definition rows_eq : list array -> list array -> Prop := Forall2 array_eq.

Definition wf_ndarray (m : ndarray) : Prop :=
  length (rows m) = fst (shape m) /\
  Forall (fun r => length r = snd (shape m)) (rows m).

(** [np.zeros(n)] *)
Definition zeros (n : nat) : array := repeat 0%Q n.

(** [np.arange(n)] for a non-negative integer [n] *)
Definition arange (n : nat) : list nat := seq 0 n.

(** [np.where(mask)[0]]: the positions where a boolean array is true *)
Fixpoint where_from (i : nat) (mask : list bool) : list nat :=
  match mask with
  | [] => []
  | b :: rest => if b then i :: where_from (S i) rest else where_from (S i) rest
  end.

Definition np_where (mask : list bool) : list nat := where_from 0 mask.

(** [a[mask]] for a boolean [mask]: NumPy raises [IndexError] when the mask
    and the array differ in length. *)
Fixpoint select {A : Type} (a : list A) (mask : list bool) : list A :=
  match a, mask with
  | x :: a', b :: mask' => if b then x :: select a' mask' else select a' mask'
  | _, _ => []
  end.

Definition mask_index {A : Type} (a : list A) (mask : list bool) : result (list A) :=
  if (length a =? length mask)%nat then Ok (select a mask) else Raise IndexError.

(** One element assignment [a[i] = v], in range. *)
Fixpoint update (a : array) (i : nat) (v : Q) : array :=
  match a, i with
  | [], _ => []
  | _ :: a', O => v :: a'
  | x :: a', S j => x :: update a' j v
  end.

(** [a[idx] = v] for an index array [idx]: every index is checked against the
    length of [a] ([IndexError] otherwise), then each position is written. *)
Definition setitem (a : array) (idx : list nat) (v : Q) : result array :=
  if forallb (fun i => (i <? length a)%nat) idx
  then Ok (fold_left (fun acc i => update acc i v) idx a)
  else Raise IndexError.

(** [np.column_stack(cols)] on 1-D arrays: [ValueError] on an empty list and
    on columns of different lengths; the result has one row per element and
    one column per array. *)
Definition column_stack (cols : list array) : result ndarray :=
  match cols with
  | [] => Raise ValueError
  | c0 :: rest =>
      if forallb (fun c => (length c =? length c0)%nat) rest
      then Ok {| shape := (length c0, length cols);
                 rows := map (fun t => map (fun c => nth t c 0%Q) cols)
                             (seq 0 (length c0)) |}
      else Raise ValueError
  end.

(** [np.linspace(start, stop, num)] (endpoint included), after NumPy's code:
    [div = num - 1]; with [div > 0] the step is [delta / div] and the last
    element is overwritten by [stop]; otherwise (zero or one element) the
    step is undefined and the only element, if any, is [start]. *)
Definition linspace (start stop : Q) (num : nat) : array :=
  let delta := (stop - start)%Q in
  let div := (num - 1)%nat in
  let y := map (fun i => inject_Z (Z.of_nat i)) (arange num) in
  let y := if (0 <? div)%nat
           then map (fun v => (v * (delta / inject_Z (Z.of_nat div)))%Q) y
           else map (fun v => (v * delta)%Q) y in
  let y := map (fun v => (v + start)%Q) y in
  if (1 <? num)%nat then removelast y ++ [stop] else y.

(** [scipy.special.eval_legendre(n, x)] for an integer degree [n >= 0], by
    Bonnet's recurrence
    [(k+1) P_{k+1}(x) = (2k+1) x P_k(x) - k P_{k-1}(x)].
    [legendre_pair n x] is [(P_n(x), P_{n+1}(x))]. *)
Fixpoint legendre_pair (n : nat) (x : Q) : Q * Q :=
  match n with
  | O => (1%Q, x)
  | S k =>
      let '(p0, p1) := legendre_pair k x in
      let k1 := inject_Z (Z.of_nat (S k)) in
      (p1, (((2 * k1 + 1) * x * p1 - k1 * p0) / (k1 + 1))%Q)
  end.

Definition eval_legendre (n : nat) (x : Q) : Q := fst (legendre_pair n x).

(* ------------------------------------------------------------------ *)
(** ** Problem 2: polynomial detrending variables *)

Local Open Scope result_scope.

(** The loop [for n in np.arange(degree): polys.append(eval_legendre(n, x_grid))]. *)
Definition polys_loop (degree : nat) (x_grid : array) : list array :=
  fold_left (fun polys n => polys ++ [map (eval_legendre n) x_grid])
            (arange degree) [].

(** The cell "Construct 4th-degree Legendre polynomials", with [n_trs] and
    [degree] as its free variables. *)
Definition legendre_polys (n_trs degree : nat) : result ndarray :=
  let x_grid := linspace (-1) 1 n_trs in
  let polys := polys_loop degree x_grid in
  column_stack polys.

(** The notebook's setting. *)
Definition degree : nat := 4.

(* ------------------------------------------------------------------ *)
(** ** Problem 3: experiment parameters and first-run boxcars *)

Local Open Scope string_scope.

Definition categories : list string :=
  ["face"; "cat"; "shoe"; "scissors"; "bottle"; "chair"; "house"; "scrambledpix"].

Definition n_categories : nat := length categories.
Definition n_trs : nat := 1452.
Definition n_runs : nat := 12.
Definition run_trs : nat := 121.

(** The label of fixation periods in the session file. *)
Definition rest : string := "rest".

(** [runs == 0] *)
Definition runs_eq_0 (runs : list Z) : list bool := map (fun r => (r =? 0)%Z) runs.

(** [labels == category] *)
Definition labels_eq (labels : list string) (category : string) : list bool :=
  map (fun l => String.eqb l category) labels.

(** The loop of the cell "Construct boxcar time series for the first run":
    [regressors] accumulates one column per category.  The selection
    [stimuli[runs == 0]] is evaluated inside the loop, once per category. *)
Fixpoint boxcar_loop (rtrs : nat) (stimuli : list string) (runs : list Z)
    (cats : list string) (regressors : list array) : result (list array) :=
  match cats with
  | [] => Ok regressors
  | category :: cats' =>
      let regressor := zeros rtrs in
      labels <- mask_index stimuli (runs_eq_0 runs) ;;
      regressor <- setitem regressor (np_where (labels_eq labels category)) 1%Q ;;
      boxcar_loop rtrs stimuli runs cats' (regressors ++ [regressor])
  end.

(** The whole cell.  [run_id] is assigned ([run_id = 0]) but the selection
    reads the literal [0]; the cell's other free variables are [run_trs],
    [categories], [stimuli] and [runs]. *)
Definition boxcar_cell (run_id : Z) (rtrs : nat) (cats : list string)
    (stimuli : list string) (runs : list Z) : result ndarray :=
  regressors <- boxcar_loop rtrs stimuli runs cats [] ;;
  column_stack regressors.

(** The cell as the notebook runs it. *)
Definition first_run_boxcars (stimuli : list string) (runs : list Z) : result ndarray :=
  boxcar_cell 0 run_trs categories stimuli runs.

(* ------------------------------------------------------------------ *)
(** ** Homework 2: rank percentiles *)

Local Close Scope string_scope.
Local Open Scope Q_scope.

Definition Qlt_bool (x y : Q) : bool := negb (Qle_bool y x).

Definition count_le (a : array) (x : Q) : nat :=
  List.length (filter (fun y => Qle_bool y x) a).

Definition count_lt (a : array) (x : Q) : nat :=
  List.length (filter (fun y => Qlt_bool y x) a).

Definition Qnat (n : nat) : Q := inject_Z (Z.of_nat n).

(** [scipy.stats.rankdata(a)] with its default method ['average'] on a 1-D
    array: ranks start at 1 and tied elements share the mean of the ranks
    they span, [0.5 * (count[dense] + count[dense - 1] + 1)], where
    [count[dense]] is the number of elements not above the element and
    [count[dense - 1]] the number of elements below it. *)
Definition average_rank (a : array) (x : Q) : Q :=
  (1 # 2) * (Qnat (count_le a x) + Qnat (count_lt a x) + 1).

Definition rankdata (a : array) : array := map (average_rank a) a.

(** [def rank_percentile(a): return rankdata(a) / len(a) * 100] *)
Definition rank_percentile (a : array) : array :=
  map (fun r => r / Qnat (List.length a) * 100) (rankdata a).

(* ------------------------------------------------------------------ *)
(** ** HRF convolution *)

Definition Qsum (l : list Q) : Q := fold_right Qplus 0 l.

(** Sample [n] of the linear convolution of [b] and [h]:
    the sum over [k] of [b[k] * h[n - k]], samples out of range being zero. *)
Definition conv_at (b h : array) (n : nat) : Q :=
  Qsum (map (fun k => nth k b 0 * nth (n - k) h 0) (seq 0 (S n))).

(** Full linear convolution: [len(b) + len(h) - 1] samples. *)
Definition convolve_full (b h : array) : array :=
  map (conv_at b h) (seq 0 (List.length b + List.length h - 1)).

(** Modelled from the spec: the cell "Convolve first-run boxcar time series
    with HRF" is left blank in the notebook.  Section 4.3: the linear (causal)
    convolution of a boxcar column with the HRF kernel, "full convolution then
    truncate to input length". *)
Definition hrf_convolve (boxcar hrf : array) : array :=
  firstn (List.length boxcar) (convolve_full boxcar hrf).

(** Pointwise sum of two arrays of the same length. *)
Definition array_add (a b : array) : array :=
  map (fun p => fst p + snd p) (combine a b).

(* ------------------------------------------------------------------ *)
(** ** Design matrix assembly *)

(** Provenance of a design-matrix column. *)
Inductive column_tag : Type :=
| Interest (category : string)
| Confound (poly_degree : nat).

Definition is_interest (t : column_tag) : bool :=
  match t with Interest _ => true | Confound _ => false end.

(** Vertical stacking of 2-D blocks: all blocks must have the same number of
    columns. *)
Definition vstack (blocks : list ndarray) : result ndarray :=
  match blocks with
  | [] => Raise ShapeMismatch
  | b0 :: rest =>
      if forallb (fun b => (snd (shape b) =? snd (shape b0))%nat) rest
      then Ok {| shape := (fold_right (fun b n => (fst (shape b) + n)%nat) 0%nat blocks,
                           snd (shape b0));
                 rows := concat (map rows blocks) |}
      else Raise ShapeMismatch
  end.

(** Horizontal stacking of two 2-D arrays with the same number of rows. *)
Definition hstack (a b : ndarray) : result ndarray :=
  if (fst (shape a) =? fst (shape b))%nat
  then Ok {| shape := (fst (shape a), (snd (shape a) + snd (shape b))%nat);
             rows := map (fun p => fst p ++ snd p) (combine (rows a) (rows b)) |}
  else Raise ShapeMismatch.

(** Modelled from the spec: the cell "Construct 4th-degree Legendre
    polynomials matching number of TRs" of problem 4 is left blank in the
    notebook.  Section 4.1: for a timepoint count [n] and a maximum degree
    [D], the [D + 1] columns of the Legendre polynomials of degree [0..D] on
    the normalized grid spanning [-1, 1] across the [n] timepoints; a single
    timepoint fails with [InvalidInput]. *)
Definition polynomial_detrender (n D : nat) : result ndarray :=
  if (n =? 1)%nat then Raise InvalidInput
  else column_stack (map (fun k => map (eval_legendre k) (linspace (-1) 1 n))
                         (seq 0 (S D))).

(** Modelled from the spec: the cells "Loop through runs, apply HRF, and
    re-stack" and "Stack detrending variables alongside category regressors"
    are left blank in the notebook.  Section 4.4: the per-run blocks of
    convolved regressors (one column per category) are stacked vertically in
    run order, a run whose length is not the expected per-run length fails
    with [ShapeMismatch], the output of the Polynomial Detrender computed
    over the full timepoint range is appended on the right, and every column
    is tagged with its provenance. *)
Definition assemble_design (run_len : nat) (cats : list string) (D : nat)
    (blocks : list ndarray) : result (ndarray * list column_tag) :=
  (if forallb (fun b => (fst (shape b) =? run_len)%nat
                        && (snd (shape b) =? List.length cats)%nat) blocks
   then
     X <- vstack blocks ;;
     P <- polynomial_detrender (fst (shape X)) D ;;
     XP <- hstack X P ;;
     Ok (XP, map Interest cats ++ map Confound (arange (snd (shape P))))
   else Raise ShapeMismatch)%result.

(* ------------------------------------------------------------------ *)
(** ** Contrasts *)

(** Modelled from the spec: the cell "Create contrast vectors / Apply contrast
    vectors to betas" is left blank in the notebook.  Section 4.5: the
    contrast map is [c^T . beta_interest], one scalar per voxel; the text of
    the notebook: "multiply the contrast vector by the corresponding betas and
    sum across betas".  [beta] holds one row per column of interest. *)
Definition contrast_map (c : array) (beta : ndarray) : result array :=
  if (List.length c =? fst (shape beta))%nat
  then Ok (map (fun v => Qsum (map (fun p => fst p * nth v (snd p) 0)
                                   (combine c (rows beta))))
               (seq 0 (snd (shape beta))))
  else Raise ShapeMismatch.

(** The sub-block of the coefficients of the [k] columns of interest, which
    come first in the design matrix. *)
Definition interest_block (k : nat) (beta : ndarray) : ndarray :=
  {| shape := (Nat.min k (fst (shape beta)), snd (shape beta));
     rows := firstn k (rows beta) |}.

(** [beta + K]: the constant [K] added to every coefficient of the block. *)
Definition beta_shift (K : Q) (beta : ndarray) : ndarray :=
  {| shape := shape beta; rows := map (map (fun x => x + K)) (rows beta) |}.

(* ------------------------------------------------------------------ *)
(** ** Least squares *)

(** Row-major data of a matrix. *)
Definition mat := list (list Q).

Definition dot (u v : array) : Q :=
  Qsum (map (fun p => fst p * snd p) (combine u v)).

(** Transpose of a matrix with [ncols] columns. *)
Definition transpose (ncols : nat) (m : mat) : mat :=
  map (fun j => map (fun r => nth j r 0) m) (seq 0 ncols).

(** [mul_t a bt] is the product of [a] with the transpose of [bt]: entry
    [(i, j)] is the dot product of row [i] of [a] and row [j] of [bt]. *)
Definition mul_t (a bt : mat) : mat :=
  map (fun r => map (fun c => Qred (dot r c)) bt) a.

(** First row at or below [r] whose entry in column [j] is not zero. *)
Fixpoint find_pivot (m : mat) (i r j : nat) : option nat :=
  match m with
  | [] => None
  | row :: m' =>
      if (r <=? i)%nat && negb (Qeq_bool (nth j row 0) 0)
      then Some i
      else find_pivot m' (S i) r j
  end.

Definition swap_rows (m : mat) (r p : nat) : mat :=
  map (fun i => if (i =? r)%nat then nth p m []
                else if (i =? p)%nat then nth r m []
                else nth i m [])
      (seq 0 (List.length m)).

(** One Gauss-Jordan step on pivot position [(r, j)]: the pivot row is
    scaled to a leading one and subtracted from every other row. *)
Definition eliminate (m : mat) (r j : nat) : mat :=
  let prow := nth r m [] in
  let prow' := map (fun x => Qred (x / nth j prow 0)) prow in
  map (fun i =>
         let row := nth i m [] in
         if (i =? r)%nat then prow'
         else map (fun p => Qred (fst p - nth j row 0 * snd p)) (combine row prow'))
      (seq 0 (List.length m)).

(** Reduced row echelon form over the columns [cols], with the list of pivot
    positions [(row, column)]. *)
Fixpoint gauss_jordan (cols : list nat) (r : nat) (m : mat)
    (pivots : list (nat * nat)) : mat * list (nat * nat) :=
  match cols with
  | [] => (m, pivots)
  | j :: cols' =>
      match find_pivot m 0 r j with
      | None => gauss_jordan cols' r m pivots
      | Some p =>
          gauss_jordan cols' (S r) (eliminate (swap_rows m r p) r j)
                       (pivots ++ [(r, j)])
      end
  end.

(** Modelled from the spec: section 4.5 speaks of a rank-deficient [X], the
    notebook computes no rank.  The column rank of a matrix in exact
    arithmetic: the number of pivots of its reduced row echelon form. *)
Definition matrix_rank (a : ndarray) : nat :=
  List.length (snd (gauss_jordan (seq 0 (snd (shape a))) 0 (rows a) [])).

(** Modelled from the spec: the cell "Use least-squares to compute betas" is
    left blank in the notebook.  Section 4.5, "Fit": the coefficients
    [beta] (P x V) minimising [||Y - X beta||^2], in exact arithmetic, by
    elimination rather than by an explicit inverse: the solution of the
    normal equations [X^T X beta = X^T Y], read off the reduced row echelon
    form of [[X^T X | X^T Y]]. *)
Definition least_squares (X Y : ndarray) : ndarray :=
  let P := snd (shape X) in
  let V := snd (shape Y) in
  let Xt := transpose P (rows X) in
  let XtX := mul_t Xt Xt in
  let XtY := mul_t Xt (transpose V (rows Y)) in
  let aug := map (fun p => (fst p ++ snd p)%list) (combine XtX XtY) in
  let '(R, piv) := gauss_jordan (seq 0 P) 0 aug [] in
  {| shape := (P, V);
     rows := map (fun j =>
                    match find (fun p => (snd p =? j)%nat) piv with
                    | Some (i, _) => skipn P (nth i R [])
                    | None => repeat 0 V
                    end) (seq 0 P) |}.

(** Modelled from the spec: the cells "Use least-squares to compute betas"
    and "Apply contrast vectors to betas" are left blank in the notebook.
    Section 4.5: the design [X] (T x P) and the response [Y] (T x V) must
    have the same [T] ([ShapeMismatch] otherwise, section 7); a
    rank-deficient [X] is signalled as [RankDeficiency] and no coefficients
    are returned; otherwise the coefficients are fit and those of the [k]
    columns of interest are reduced with each contrast vector. *)
Definition ols_contrast_estimator (k : nat) (X Y : ndarray)
    (contrasts : list array) : result (ndarray * list array) :=
  (if negb (fst (shape X) =? fst (shape Y))%nat then Raise ShapeMismatch
   else if (matrix_rank X <? snd (shape X))%nat then Raise RankDeficiency
   else
     let beta := least_squares X Y in
     maps <- fold_right (fun c acc =>
                           ms <- acc ;;
                           m <- contrast_map c (interest_block k beta) ;;
                           Ok (m :: ms))
                        (Ok []) contrasts ;;
     Ok (beta, maps))%result.

(* ------------------------------------------------------------------ *)
(** ** Specification helpers *)

(** The sign pattern of the Legendre polynomials at [-1]. *)
Definition alternating (k : nat) : Q := if Nat.even k then 1 else -1.

(** Whether timepoint [t] of a label sequence carries the label [category]. *)
Definition label_is (labels : list string) (t : nat) (category : string) : bool :=
  match nth_error labels t with
  | Some l => String.eqb l category
  | None => false
  end.

Definition indicator (b : bool) : Q := if b then 1 else 0.

(** The regressor the loop body builds for one category. *)
Definition boxcar_column (rtrs : nat) (labels : list string) (category : string)
  : result array :=
  setitem (zeros rtrs) (np_where (labels_eq labels category)) 1.

Fixpoint boxcar_columns (rtrs : nat) (labels : list string) (cats : list string)
  : result (list array) :=
  match cats with
  | [] => Ok []
  | category :: cats' =>
      (col <- boxcar_column rtrs labels category ;;
       cols <- boxcar_columns rtrs labels cats' ;;
       Ok (col :: cols))%result
  end.

(** The matrix of indicators: row [t], column [c] tells whether the label at
    [t] is category [c]. *)
Definition boxcar_matrix (rtrs : nat) (labels : list string) (cats : list string)
  : ndarray :=
  {| shape := (rtrs, List.length cats);
     rows := map (fun t => map (fun c => indicator (label_is labels t c)) cats)
                 (seq 0 rtrs) |}.

Definition row_sum (m : ndarray) (t : nat) : Q := Qsum (nth t (rows m) []).

(** A session's labels: category tags and the rest tag. *)
Definition well_labelled (stimuli : list string) : Prop :=
  Forall (fun l => l = rest \/ In l categories) stimuli.

(** Entries pairwise different. *)
Fixpoint distinctb (a : array) : bool :=
  match a with
  | [] => true
  | x :: r => forallb (fun y => negb (Qeq_bool x y)) r && distinctb r
  end.

(** A block of [run_len] timepoints and [k] regressors, all zero. *)
Definition zero_block (run_len k : nat) : ndarray :=
  {| shape := (run_len, k); rows := repeat (repeat 0 k) run_len |}.

(** [X v = 0]: every row of the matrix is orthogonal to [v]. *)
Definition in_kernel (m : mat) (v : array) : Prop :=
  forall t, dot (nth t m []) v == 0.

(** The columns of [X] are linearly dependent: a vector with a nonzero
    entry is sent to zero. *)
Definition rank_deficient (X : ndarray) : Prop :=
  exists v, List.length v = snd (shape X) /\
            (exists k, (k < snd (shape X))%nat /\ ~ nth k v 0 == 0) /\
            in_kernel (rows X) v.

(** The term of column [c] in the product of a row with a unit vector. *)
Definition row_term (row : array) (c k : nat) : Q :=
  nth k row 0 * (if (k =? c)%nat then 1 else 0).

(** A design with two identical category columns, and a response. *)
Definition X_collinear : ndarray :=
  {| shape := (3, 2)%nat; rows := [[1; 1]; [0; 0]; [1; 1]] |}.

Definition Y_collinear : ndarray :=
  {| shape := (3, 1)%nat; rows := [[2]; [0]; [2]] |}.

(** All rows of a matrix have [n] entries. *)
Definition rect (n : nat) (m : mat) : Prop := Forall (fun row => List.length row = n) m.

(** Columns [i] and [j] of a matrix are identical. *)
Definition cols_equal (m : mat) (i j : nat) : Prop :=
  forall t, nth i (nth t m []) 0 == nth j (nth t m []) 0.

(** Column [j] is zero in every row from row [r] on. *)
Definition col_zero_from (m : mat) (r j : nat) : Prop :=
  forall t, (r <= t)%nat -> nth j (nth t m []) 0 == 0.

(* ------------------------------------------------------------------ *)
(** ** Homework 1, problem 3: the plotting loop over the boxcars *)

(** [m.T] *)
Definition ndarray_T (m : ndarray) : ndarray :=
  {| shape := (snd (shape m), fst (shape m));
     rows := transpose (snd (shape m)) (rows m) |}.

(** [enumerate(xs)] *)
Definition enumerate {A : Type} (xs : list A) : list (nat * A) :=
  combine (seq 0 (List.length xs)) xs.

(** The triples [(i, (category, regressor))] the loop
    [for i, (category, regressor) in enumerate(zip(categories, regressors.T))]
    runs over; [regressor] is what is drawn on axis [i], [category] its
    label.  Iterating over a 2-D array yields its rows. *)
Definition boxcar_traces (cats : list string) (regressors : ndarray)
  : list (nat * (string * array)) :=
  enumerate (combine cats (rows (ndarray_T regressors))).

(* ------------------------------------------------------------------ *)
(** ** Homework 2, problem 1: task timepoints and categories *)

(** Strings in lexicographic order of their characters, the order in which
    [np.unique] sorts an array of labels. *)
Module StringOrder <: TotalLeBool.
Definition t := string.
Definition leb (a b : string) : bool :=
  match String_as_OT.compare a b with Gt => false | _ => true end.
Lemma leb_total (a b : string) : leb a b = true \/ leb b a = true.
Proof.
  unfold leb.
  destruct (String_as_OT.compare_spec a b) as [E|L|L]; auto.
  destruct (String_as_OT.compare_spec b a) as [E'|L'|L']; auto.
  exfalso. apply (StrictOrder_Irreflexive a).
  now apply (StrictOrder_Transitive a b a).
Qed.
End StringOrder.

Module StringSort := Sort StringOrder.

(** The elements of a sorted array that differ from their predecessor. *)
Fixpoint keep_changes (prev : string) (l : list string) : list string :=
  match l with
  | [] => []
  | x :: l' => if String.eqb x prev then keep_changes x l'
               else x :: keep_changes x l'
  end.

(** [np.unique(ar)] on a 1-D array of strings: the array is sorted and an
    element is kept when it differs from the one before it
    ([mask[:1] = True; mask[1:] = aux[1:] != aux[:-1]]). *)
Definition np_unique (ar : list string) : list string :=
  match StringSort.sort ar with
  | [] => []
  | x :: l => x :: keep_changes x l
  end.

(** The cell that loads the session for the classification problem, from
    [task_trs] on; the names are the cell's. *)
Module Homework2.

(** [task_trs = stimuli != 'rest'] *)
Definition task_trs (stimuli : list string) : list bool :=
  map (fun l => negb (String.eqb l rest)) stimuli.

(** [categories = [c for c in np.unique(stimuli) if c != 'rest']] *)
Definition categories (stimuli : list string) : list string :=
  filter (fun c => negb (String.eqb c rest)) (np_unique stimuli).

(** [stimuli_task = stimuli[task_trs]] *)
Definition stimuli_task (stimuli : list string) : result (list string) :=
  mask_index stimuli (task_trs stimuli).

(** [runs_task = runs[task_trs]] *)
Definition runs_task (stimuli : list string) (runs : list Z) : result (list Z) :=
  mask_index runs (task_trs stimuli).

End Homework2.

(** Sum of a list of counts. *)
Definition nat_sum (l : list nat) : nat := fold_right Nat.add 0%nat l.

(* ================================================================== *)
(** * Properties *)

(** ** Generic facts on the array operations *)

Lemma fold_left_append {A B : Type} (f : B -> A) (l : list B) (acc : list A) :
  fold_left (fun xs n => xs ++ [f n])%list l acc = (acc ++ map f l)%list.
Proof.
  revert acc. induction l as [|b l IH]; intros acc; simpl.
  - now rewrite app_nil_r.
  - rewrite IH, <- app_assoc. reflexivity.
Qed.

Lemma nth_map_in_range {A : Type} (g : A -> Q) (l : list A) (d : A) (t : nat) :
  (t < List.length l)%nat -> nth t (map g l) 0 = g (nth t l d).
Proof.
  intros Ht. rewrite (nth_indep _ 0 (g d)) by now rewrite length_map.
  apply map_nth.
Qed.

Lemma column_stack_ok (n : nat) (cols : list array) :
  cols <> [] ->
  Forall (fun c => List.length c = n) cols ->
  column_stack cols =
  Ok {| shape := (n, List.length cols);
        rows := map (fun t => map (fun c => nth t c 0) cols) (seq 0 n) |}.
Proof.
  intros Hne Hall. destruct cols as [|c0 rest]; [congruence|].
  unfold column_stack.
  pose proof (Forall_inv Hall) as H0. pose proof (Forall_inv_tail Hall) as Hr.
  simpl in H0.
  replace (forallb (fun c => (List.length c =? List.length c0)%nat) rest) with true.
  - rewrite H0. reflexivity.
  - symmetry. apply forallb_forall. intros c Hc.
    rewrite Forall_forall in Hr. rewrite (Hr c Hc), H0. apply Nat.eqb_refl.
Qed.

Lemma linspace_length (start stop : Q) (num : nat) :
  List.length (linspace start stop num) = num.
Proof.
  unfold linspace, arange.
  set (y := map _ (if (0 <? num - 1)%nat then _ else _)).
  assert (Hy : List.length y = num).
  { unfold y. destruct (0 <? num - 1)%nat; now rewrite !length_map, length_seq. }
  destruct (1 <? num)%nat eqn:E; [|exact Hy].
  apply Nat.ltb_lt in E.
  rewrite length_app. simpl.
  destruct y as [|y0 y'] using rev_ind; [simpl in Hy; lia|].
  rewrite removelast_last. rewrite length_app in Hy. simpl in Hy. lia.
Qed.

(** ** The polynomial detrending cell *)

Lemma polys_loop_map (deg : nat) (x_grid : array) :
  polys_loop deg x_grid = map (fun n => map (eval_legendre n) x_grid) (seq 0 deg).
Proof. unfold polys_loop, arange. now rewrite fold_left_append. Qed.

(** With at least one polynomial requested the cell returns an array with
    one row per timepoint and one column per degree in [0, deg - 1]. *)
Lemma legendre_polys_ok (n deg : nat) :
  (0 < deg)%nat ->
  legendre_polys n deg =
  Ok {| shape := (n, deg);
        rows := map (fun t => map (fun k => eval_legendre k (nth t (linspace (-1) 1 n) 0))
                                  (seq 0 deg))
                    (seq 0 n) |}.
Proof.
  intros Hd. unfold legendre_polys. rewrite polys_loop_map.
  rewrite (column_stack_ok n).
  - rewrite length_map, length_seq. do 2 f_equal.
    apply map_ext_in. intros t Ht. apply in_seq in Ht.
    rewrite map_map. apply map_ext. intros k.
    apply nth_map_in_range. rewrite linspace_length. lia.
  - destruct deg; [lia|]. simpl. discriminate.
  - apply Forall_forall. intros c Hc. apply in_map_iff in Hc.
    destruct Hc as [k [<- _]]. now rewrite length_map, linspace_length.
Qed.

Lemma legendre_polys_no_degree (n : nat) : legendre_polys n 0 = Raise ValueError.
Proof. reflexivity. Qed.

(** The first four columns are the Legendre polynomials in closed form. *)
Lemma eval_legendre_closed_forms (x : Q) :
  eval_legendre 0 x == 1 /\
  eval_legendre 1 x == x /\
  eval_legendre 2 x == (3 * x * x - 1) / 2 /\
  eval_legendre 3 x == (5 * x * x * x - 3 * x) / 2.
Proof.
  unfold eval_legendre. simpl. repeat split; try reflexivity; field.
Qed.

(** From two timepoints on, the grid starts at [-1], ends at [1] and is
    evenly spaced. *)
Lemma linspace_grid (n t : nat) :
  (2 <= n)%nat -> (t < n)%nat ->
  nth t (linspace (-1) 1 n) 0 == -1 + Qnat t * (2 / Qnat (n - 1)).
Proof.
  intros Hn Ht. unfold linspace, arange.
  replace (0 <? n - 1)%nat with true by (symmetry; apply Nat.ltb_lt; lia).
  replace (1 <? n)%nat with true by (symmetry; apply Nat.ltb_lt; lia).
  rewrite !map_map.
  set (g := fun i : nat => _).
  assert (Hg : forall i, g i == -1 + Qnat i * (2 / Qnat (n - 1))).
  { intros i. unfold g, Qnat. field.
    intros H. unfold Qeq in H. simpl in H. lia. }
  destruct (Nat.eq_dec t (n - 1)) as [->|Hne].
  - replace (n - 1)%nat with (List.length (removelast (map g (seq 0 n)))) at 1.
    + rewrite nth_middle. field.
      intros H. unfold Qnat, Qeq in H. simpl in H. lia.
    + replace n with (S (n - 1)) at 1 by lia.
      rewrite seq_S, map_app. simpl. rewrite removelast_last.
      now rewrite length_map, length_seq.
  - replace n with (S (n - 1)) at 1 by lia.
    rewrite seq_S, map_app. simpl. rewrite removelast_last.
    rewrite app_nth1 by (rewrite length_map, length_seq; lia).
    rewrite (nth_indep _ 0 (g 0%nat)) by (rewrite length_map, length_seq; lia).
    rewrite (map_nth g), seq_nth by lia. apply Hg.
Qed.

Lemma alternating_SS (k : nat) : alternating (S (S k)) = alternating k.
Proof. reflexivity. Qed.

Lemma alternating_S (k : nat) : alternating (S k) == - alternating k.
Proof.
  unfold alternating. rewrite Nat.even_succ, <- Nat.negb_even.
  destruct (Nat.even k); reflexivity.
Qed.

Lemma legendre_pair_at_minus_one (k : nat) :
  fst (legendre_pair k (-1)) == alternating k /\
  snd (legendre_pair k (-1)) == alternating (S k).
Proof.
  induction k as [|k [IH0 IH1]].
  - split; reflexivity.
  - simpl legendre_pair. destruct (legendre_pair k (-1)) as [p0 p1].
    simpl in IH0, IH1. simpl fst. simpl snd. split; [exact IH1|].
    rewrite alternating_SS, IH0, IH1, alternating_S.
    set (k1 := inject_Z (Z.of_nat (S k))).
    assert (Hk : ~ k1 + 1 == 0).
    { unfold k1. intro H. unfold Qeq in H. simpl in H. lia. }
    field. exact Hk.
Qed.

Lemma eval_legendre_at_minus_one (k : nat) : eval_legendre k (-1) == alternating k.
Proof. apply legendre_pair_at_minus_one. Qed.

(** ** The first-run boxcar cell *)

Lemma where_from_In (mask : list bool) (i t : nat) :
  In t (where_from i mask) <-> (i <= t)%nat /\ nth_error mask (t - i) = Some true.
Proof.
  revert i. induction mask as [|b mask IH]; intros i; simpl.
  - split; [tauto|]. intros [_ H]. destruct (t - i)%nat; discriminate.
  - assert (Hstep : In t (where_from (S i) mask) <->
                    (i < t)%nat /\ nth_error (b :: mask) (t - i) = Some true).
    { rewrite IH. split; intros [Hlt H]; split; try lia.
      - replace (t - i)%nat with (S (t - S i)) by lia. exact H.
      - replace (t - i)%nat with (S (t - S i)) in H by lia. exact H. }
    destruct b; simpl; rewrite Hstep.
    + split.
      * intros [<- | [Hlt H]]; [|split; [lia|exact H]].
        split; [lia|]. now rewrite Nat.sub_diag.
      * intros [Hle H]. destruct (Nat.eq_dec i t) as [->|Hne]; [now left|].
        right. split; [lia|exact H].
    + split.
      * intros [Hlt H]. split; [lia|exact H].
      * intros [Hle H]. split; [|exact H].
        destruct (Nat.eq_dec i t) as [->|Hne]; [|lia].
        rewrite Nat.sub_diag in H. discriminate.
Qed.

Lemma np_where_In (mask : list bool) (t : nat) :
  In t (np_where mask) <-> nth_error mask t = Some true.
Proof.
  unfold np_where. rewrite where_from_In, Nat.sub_0_r. split; [tauto|].
  intros H. split; [lia|exact H].
Qed.

Lemma labels_eq_nth (labels : list string) (category : string) (t : nat) :
  nth_error (labels_eq labels category) t = Some true <->
  label_is labels t category = true.
Proof.
  unfold labels_eq, label_is. rewrite nth_error_map.
  destruct (nth_error labels t) as [l|]; simpl; split; congruence.
Qed.

Lemma update_length (a : array) (i : nat) (v : Q) :
  List.length (update a i v) = List.length a.
Proof.
  revert i. induction a as [|x a IH]; intros [|i]; simpl; auto.
Qed.

Lemma nth_update (a : array) (i t : nat) (v : Q) :
  (i < List.length a)%nat ->
  nth t (update a i v) 0 = if (t =? i)%nat then v else nth t a 0.
Proof.
  revert i t. induction a as [|x a IH]; intros i t Hi; simpl in Hi; [lia|].
  destruct i as [|i], t as [|t]; simpl; auto.
  apply IH. lia.
Qed.

Lemma fold_update_length (idx : list nat) (a : array) (v : Q) :
  List.length (fold_left (fun acc i => update acc i v) idx a) = List.length a.
Proof.
  revert a. induction idx as [|i idx IH]; intros a; simpl; auto.
  now rewrite IH, update_length.
Qed.

Lemma nth_fold_update (idx : list nat) (a : array) (t : nat) (v : Q) :
  Forall (fun i => (i < List.length a)%nat) idx ->
  nth t (fold_left (fun acc i => update acc i v) idx a) 0 =
  if existsb (Nat.eqb t) idx then v else nth t a 0.
Proof.
  revert a. induction idx as [|i idx IH]; intros a Hall; simpl; auto.
  pose proof (Forall_inv Hall) as Hi. pose proof (Forall_inv_tail Hall) as Hr.
  rewrite IH.
  - rewrite nth_update by exact Hi.
    destruct (t =? i)%nat; simpl; [|reflexivity].
    now destruct (existsb (Nat.eqb t) idx).
  - eapply Forall_impl; [|exact Hr]. intros j Hj. now rewrite update_length.
Qed.

Lemma existsb_where (labels : list string) (category : string) (t : nat) :
  existsb (Nat.eqb t) (np_where (labels_eq labels category)) = label_is labels t category.
Proof.
  apply eq_true_iff_eq. rewrite existsb_exists, <- labels_eq_nth, <- np_where_In.
  split.
  - intros [j [Hj E]]. apply Nat.eqb_eq in E. now subst.
  - intros H. exists t. split; [exact H|apply Nat.eqb_refl].
Qed.

Lemma boxcar_column_ok (rtrs : nat) (labels : list string) (category : string) :
  (forall t, label_is labels t category = true -> (t < rtrs)%nat) ->
  boxcar_column rtrs labels category =
  Ok (map (fun t => indicator (label_is labels t category)) (seq 0 rtrs)).
Proof.
  intros Hin. unfold boxcar_column, setitem, zeros.
  assert (Hall : Forall (fun i => (i < List.length (repeat 0%Q rtrs))%nat)
                        (np_where (labels_eq labels category))).
  { apply Forall_forall. intros i Hi. rewrite repeat_length.
    apply Hin. now rewrite <- labels_eq_nth, <- np_where_In. }
  replace (forallb _ _) with true.
  - f_equal. apply (nth_ext _ _ 0 0).
    + now rewrite fold_update_length, repeat_length, length_map, length_seq.
    + intros t Ht. rewrite fold_update_length, repeat_length in Ht.
      rewrite nth_fold_update by exact Hall.
      rewrite existsb_where.
      rewrite (nth_map_in_range _ _ 0%nat) by now rewrite length_seq.
      rewrite seq_nth by exact Ht. simpl.
      destruct (label_is labels t category); simpl; [reflexivity|].
      apply nth_repeat.
  - symmetry. apply forallb_forall. intros i Hi.
    rewrite Forall_forall in Hall. apply Nat.ltb_lt. now apply Hall.
Qed.

Lemma boxcar_column_inv (rtrs : nat) (labels : list string) (category : string)
    (col : array) :
  boxcar_column rtrs labels category = Ok col ->
  forall t, label_is labels t category = true -> (t < rtrs)%nat.
Proof.
  unfold boxcar_column, setitem, zeros. intros H t Ht.
  destruct (forallb _ _) eqn:E; [|discriminate].
  rewrite forallb_forall in E.
  specialize (E t). rewrite repeat_length in E. apply Nat.ltb_lt, E.
  now rewrite np_where_In, labels_eq_nth.
Qed.

Lemma boxcar_column_raises (rtrs : nat) (labels : list string) (category : string) :
  boxcar_column rtrs labels category = Raise IndexError \/
  exists col, boxcar_column rtrs labels category = Ok col.
Proof.
  unfold boxcar_column, setitem. destruct (forallb _ _); eauto.
Qed.

(** The loop evaluates the selection once per category, always to the same
    value: it is the column-by-column construction on the selected labels. *)
Lemma boxcar_loop_selected (rtrs : nat) (stimuli : list string) (runs : list Z)
    (labels : list string) (cats : list string) (acc : list array) :
  mask_index stimuli (runs_eq_0 runs) = Ok labels ->
  boxcar_loop rtrs stimuli runs cats acc =
  (cols <- boxcar_columns rtrs labels cats ;; Ok (acc ++ cols)%list)%result.
Proof.
  intros Hsel. revert acc. induction cats as [|c cats IH]; intros acc; simpl.
  - now rewrite app_nil_r.
  - rewrite Hsel. simpl. fold (boxcar_column rtrs labels c).
    destruct (boxcar_column rtrs labels c) as [col|e]; simpl; [|reflexivity].
    rewrite IH. destruct (boxcar_columns rtrs labels cats) as [cols|e]; simpl.
    + now rewrite <- app_assoc.
    + reflexivity.
Qed.

Lemma boxcar_loop_mask_error (rtrs : nat) (stimuli : list string) (runs : list Z)
    (cats : list string) (acc : list array) (e : exn) :
  mask_index stimuli (runs_eq_0 runs) = Raise e ->
  cats <> [] ->
  boxcar_loop rtrs stimuli runs cats acc = Raise e.
Proof.
  intros Hsel Hne. destruct cats as [|c cats]; [congruence|].
  simpl. now rewrite Hsel.
Qed.

Lemma boxcar_columns_ok (rtrs : nat) (labels : list string) (cats : list string) :
  (forall t c, In c cats -> label_is labels t c = true -> (t < rtrs)%nat) ->
  boxcar_columns rtrs labels cats =
  Ok (map (fun c => map (fun t => indicator (label_is labels t c)) (seq 0 rtrs)) cats).
Proof.
  induction cats as [|c cats IH]; intros Hin; simpl; [reflexivity|].
  rewrite boxcar_column_ok by (intros t; apply Hin; now left). simpl.
  rewrite IH by (intros t c' Hc'; apply Hin; now right). reflexivity.
Qed.

Lemma boxcar_columns_inv (rtrs : nat) (labels : list string) (cats : list string)
    (cols : list array) :
  boxcar_columns rtrs labels cats = Ok cols ->
  forall t c, In c cats -> label_is labels t c = true -> (t < rtrs)%nat.
Proof.
  revert cols. induction cats as [|c cats IH]; intros cols H t c' Hc' Ht; simpl in *.
  - contradiction.
  - destruct (boxcar_column rtrs labels c) as [col|e] eqn:Ec; simpl in H; [|discriminate].
    destruct (boxcar_columns rtrs labels cats) as [cs|e] eqn:Ecs; simpl in H; [|discriminate].
    destruct Hc' as [<-|Hc'].
    + eapply boxcar_column_inv; eauto.
    + eapply IH; eauto.
Qed.

Lemma boxcar_cell_ok (run_id : Z) (rtrs : nat) (cats : list string)
    (stimuli : list string) (runs : list Z) (labels : list string) :
  cats <> [] ->
  mask_index stimuli (runs_eq_0 runs) = Ok labels ->
  (forall t c, In c cats -> label_is labels t c = true -> (t < rtrs)%nat) ->
  boxcar_cell run_id rtrs cats stimuli runs = Ok (boxcar_matrix rtrs labels cats).
Proof.
  intros Hne Hsel Hin. unfold boxcar_cell.
  rewrite (boxcar_loop_selected _ _ _ _ _ _ Hsel), boxcar_columns_ok by exact Hin.
  simpl. rewrite (column_stack_ok rtrs).
  - unfold boxcar_matrix. rewrite length_map. do 2 f_equal.
    apply map_ext_in. intros t Ht. apply in_seq in Ht.
    rewrite map_map. apply map_ext. intros c.
    rewrite (nth_map_in_range _ _ 0%nat) by (rewrite length_seq; lia).
    rewrite seq_nth by lia. reflexivity.
  - destruct cats; [congruence|discriminate].
  - apply Forall_forall. intros col Hc. apply in_map_iff in Hc.
    destruct Hc as [c [<- _]]. now rewrite length_map, length_seq.
Qed.

Lemma boxcar_cell_inv (run_id : Z) (rtrs : nat) (cats : list string)
    (stimuli : list string) (runs : list Z) (m : ndarray) :
  boxcar_cell run_id rtrs cats stimuli runs = Ok m ->
  exists labels,
    mask_index stimuli (runs_eq_0 runs) = Ok labels /\
    (forall t c, In c cats -> label_is labels t c = true -> (t < rtrs)%nat) /\
    m = boxcar_matrix rtrs labels cats.
Proof.
  intros H.
  destruct cats as [|c0 cats0] eqn:Ecats; [discriminate|]. rewrite <- Ecats in *.
  assert (Hne : cats <> []) by (rewrite Ecats; discriminate).
  destruct (mask_index stimuli (runs_eq_0 runs)) as [labels|e] eqn:Hsel.
  - exists labels. split; [reflexivity|].
    assert (Hin : forall t c, In c cats -> label_is labels t c = true -> (t < rtrs)%nat).
    { unfold boxcar_cell in H. rewrite (boxcar_loop_selected _ _ _ _ _ _ Hsel) in H.
      destruct (boxcar_columns rtrs labels cats) as [cols|e] eqn:Ecols;
        simpl in H; [|discriminate].
      eapply boxcar_columns_inv; eauto. }
    split; [exact Hin|].
    rewrite (boxcar_cell_ok run_id rtrs cats stimuli runs labels Hne Hsel Hin) in H. congruence.
  - unfold boxcar_cell in H.
    rewrite (boxcar_loop_mask_error _ _ _ _ _ _ Hsel Hne) in H. discriminate.
Qed.

Lemma boxcar_matrix_wf (rtrs : nat) (labels cats : list string) :
  wf_ndarray (boxcar_matrix rtrs labels cats).
Proof.
  split; simpl.
  - now rewrite length_map, length_seq.
  - apply Forall_forall. intros r Hr. apply in_map_iff in Hr.
    destruct Hr as [t [<- _]]. now rewrite length_map.
Qed.

Lemma boxcar_matrix_row (rtrs : nat) (labels cats : list string) (t : nat) :
  (t < rtrs)%nat ->
  nth t (rows (boxcar_matrix rtrs labels cats)) [] =
  map (fun c => indicator (label_is labels t c)) cats.
Proof.
  intros Ht. simpl.
  rewrite (nth_indep _ [] (map (fun c => indicator (label_is labels 0 c)) cats))
    by now rewrite length_map, length_seq.
  rewrite (map_nth (fun t => map (fun c => indicator (label_is labels t c)) cats)).
  now rewrite seq_nth.
Qed.

Lemma boxcar_matrix_row_outside (rtrs : nat) (labels cats : list string) (t : nat) :
  (rtrs <= t)%nat -> nth t (rows (boxcar_matrix rtrs labels cats)) [] = [].
Proof.
  intros Ht. apply nth_overflow. simpl. now rewrite length_map, length_seq.
Qed.

Lemma boxcar_matrix_entry (rtrs : nat) (labels cats : list string) (t c : nat) :
  (t < rtrs)%nat -> (c < List.length cats)%nat ->
  entry (boxcar_matrix rtrs labels cats) t c =
  indicator (label_is labels t (nth c cats EmptyString)).
Proof.
  intros Ht Hc. unfold entry. rewrite boxcar_matrix_row by exact Ht.
  exact (nth_map_in_range (fun c => indicator (label_is labels t c)) cats
                          EmptyString c Hc).
Qed.

Lemma label_is_spec (labels : list string) (t : nat) (c : string) :
  label_is labels t c = true <-> nth_error labels t = Some c.
Proof.
  unfold label_is. destruct (nth_error labels t) as [l|].
  - rewrite String.eqb_eq. split; congruence.
  - split; discriminate.
Qed.

Lemma label_is_in_range (labels : list string) (t : nat) (c : string) :
  label_is labels t c = true -> (t < List.length labels)%nat.
Proof.
  rewrite label_is_spec. intros H. apply nth_error_Some. congruence.
Qed.

Lemma select_In {A : Type} (a : list A) (mask : list bool) (x : A) :
  In x (select a mask) -> In x a.
Proof.
  revert mask. induction a as [|y a IH]; intros [|b mask]; simpl; try tauto.
  destruct b; simpl; intros H.
  - destruct H as [->|H]; [now left|right; eauto].
  - right; eauto.
Qed.

Lemma mask_index_parallel (stimuli : list string) (runs : list Z) :
  List.length stimuli = List.length runs ->
  mask_index stimuli (runs_eq_0 runs) = Ok (select stimuli (runs_eq_0 runs)).
Proof.
  intros H. unfold mask_index, runs_eq_0. rewrite length_map, H, Nat.eqb_refl.
  reflexivity.
Qed.

Lemma mask_index_inv {A : Type} (a : list A) (mask : list bool) (sel : list A) :
  mask_index a mask = Ok sel -> sel = select a mask.
Proof.
  unfold mask_index. destruct (_ =? _)%nat; congruence.
Qed.

(** *** Sum of a row of indicators *)

Lemma indicator_sum_absent (l : string) (cats : list string) :
  ~ In l cats -> Qsum (map (fun c => indicator (String.eqb l c)) cats) == 0.
Proof.
  induction cats as [|c cats IH]; simpl; intros Hn; [reflexivity|].
  destruct (String.eqb_spec l c) as [->|Hne].
  - exfalso. apply Hn. now left.
  - simpl. rewrite IH by tauto. reflexivity.
Qed.

Lemma indicator_sum_present (l : string) (cats : list string) :
  NoDup cats -> In l cats -> Qsum (map (fun c => indicator (String.eqb l c)) cats) == 1.
Proof.
  induction cats as [|c cats IH]; simpl; intros Hnd Hin; [contradiction|].
  inversion Hnd as [|c' cats' Hnotin Hnd']; subst.
  destruct (String.eqb_spec l c) as [->|Hne].
  - simpl. rewrite indicator_sum_absent by exact Hnotin. reflexivity.
  - simpl. destruct Hin as [->|Hin]; [congruence|].
    rewrite IH by assumption. reflexivity.
Qed.

Lemma boxcar_row_sum_labelled (rtrs : nat) (labels cats : list string) (t : nat)
    (l : string) :
  (t < rtrs)%nat -> nth_error labels t = Some l ->
  row_sum (boxcar_matrix rtrs labels cats) t ==
  Qsum (map (fun c => indicator (String.eqb l c)) cats).
Proof.
  intros Ht Hl. unfold row_sum. rewrite boxcar_matrix_row by exact Ht.
  unfold label_is. rewrite Hl. reflexivity.
Qed.

Lemma boxcar_row_sum_unlabelled (rtrs : nat) (labels cats : list string) (t : nat) :
  nth_error labels t = None ->
  row_sum (boxcar_matrix rtrs labels cats) t == 0.
Proof.
  intros Hl. unfold row_sum.
  destruct (Nat.lt_ge_cases t rtrs) as [Ht|Ht].
  - rewrite boxcar_matrix_row by exact Ht. unfold label_is. rewrite Hl.
    induction cats as [|c cats IH]; simpl; [reflexivity|].
    rewrite IH. reflexivity.
  - rewrite boxcar_matrix_row_outside by exact Ht. reflexivity.
Qed.

Lemma categories_NoDup : NoDup categories.
Proof.
  unfold categories.
  repeat (constructor; [simpl; intuition discriminate|]). constructor.
Qed.

Lemma rest_not_category : ~ In rest categories.
Proof. unfold rest, categories. simpl. intuition discriminate. Qed.

(* ------------------------------------------------------------------ *)
(** ** Claims on the polynomial detrender *)

(** C1.  The detrending cell was claimed to return, for [N] timepoints and
    maximum degree [D], an [N x (D+1)] array with one column per Legendre
    degree [0..D].  The cell loops over [np.arange(degree)]: with the
    notebook's [degree = 4] it returns, for every [N], an [N x 4] array whose
    columns are the degrees 0, 1, 2, 3; no column holds the polynomial of
    degree 4 and the shape is not [N x 5]. *)
Theorem legendre_polys_stops_below_degree :
  forall n : nat,
  exists m,
    legendre_polys n degree = Ok m /\
    shape m = (n, degree) /\
    shape m <> (n, (degree + 1)%nat) /\
    forall t, (t < n)%nat ->
      nth t (rows m) [] =
      map (fun k => eval_legendre k (nth t (linspace (-1) 1 n) 0)) [0; 1; 2; 3]%nat.
Proof.
  intros n. eexists. split; [apply legendre_polys_ok; unfold degree; lia|].
  split; [reflexivity|]. split.
  - simpl. unfold degree. intros H. inversion H.
  - intros t Ht. simpl rows.
    rewrite (nth_indep _ [] (map (fun k => eval_legendre k (nth 0%nat (linspace (-1) 1 n) 0))
                                 (seq 0 degree)))
      by now rewrite length_map, length_seq.
    rewrite (map_nth (fun t => map (fun k => eval_legendre k (nth t (linspace (-1) 1 n) 0))
                                   (seq 0 degree))).
    now rewrite seq_nth.
Qed.

(** C8, the claim as stated fails: with one timepoint the cell raises
    nothing, [InvalidInput] included; it returns a [1 x 4] array of numbers. *)
Lemma legendre_polys_single_timepoint_returns :
  legendre_polys 1 degree =
    Ok {| shape := (1, 4)%nat; rows := [[1; -1; 2 # 2; -6 # 6]] |} /\
  legendre_polys 1 degree <> Raise InvalidInput.
Proof.
  assert (H : legendre_polys 1 degree =
              Ok {| shape := (1, 4)%nat; rows := [[1; -1; 2 # 2; -6 # 6]] |})
    by (vm_compute; reflexivity).
  split; [exact H|]. rewrite H. discriminate.
Qed.

(** C8, amended.  With [N = 1] the grid [np.linspace(-1, 1, 1)] is the single
    point [-1]; the cell raises no error and returns, for every number
    [D >= 1] of requested polynomials, the [1 x D] array of the values
    [P_k(-1) = (-1)^k], [k < D]: every entry is a number. *)
Theorem legendre_polys_single_timepoint (deg : nat) :
  (0 < deg)%nat ->
  exists m,
    legendre_polys 1 deg = Ok m /\
    shape m = (1, deg)%nat /\
    rows_eq (rows m) [map alternating (seq 0 deg)].
Proof.
  intros Hd. eexists. split; [apply legendre_polys_ok; exact Hd|].
  split; [reflexivity|]. simpl rows.
  constructor; [|constructor].
  change (nth 0 (linspace (-1) 1 1) 0) with (-1).
  unfold array_eq. generalize 0%nat.
  induction deg as [|d IH]; intros s; simpl; constructor.
  - apply eval_legendre_at_minus_one.
  - destruct d as [|d]; [constructor|]. apply IH. lia.
Qed.

Lemma legendre_polys_single_timepoint_witness :
  exists m, legendre_polys 1 4 = Ok m /\ shape m = (1, 4)%nat.
Proof.
  destruct (legendre_polys_single_timepoint 4) as [m [H1 [H2 _]]]; [lia|].
  exists m. split; assumption.
Defined.

(* ------------------------------------------------------------------ *)
(** ** Claims on the boxcar cell *)

(** C3, the claim as stated fails: the number of rows is the constant
    [run_trs], not the number of labels of the run, and a matrix is not
    produced for every label sequence and category list.  A first run of two
    timepoints yields a [121 x 8] array; a first run of 122 timepoints whose
    last label is a category raises [IndexError]; an empty category list
    raises [ValueError]. *)
Lemma boxcar_rows_are_run_trs :
  (mask_index ["face"; "rest"]%string (runs_eq_0 [0; 0]%Z) = Ok ["face"; "rest"]%string /\
   exists m,
     first_run_boxcars ["face"; "rest"]%string [0; 0]%Z = Ok m /\
     shape m = (121, 8)%nat /\
     shape m <> (List.length ["face"; "rest"]%string, 8%nat)) /\
  first_run_boxcars (repeat "rest"%string 121 ++ ["face"%string])%list (repeat 0%Z 122)
    = Raise IndexError /\
  boxcar_cell 0 run_trs [] ["face"; "rest"]%string [0; 0]%Z = Raise ValueError.
Proof.
  split; [split; [reflexivity|]|split].
  - eexists. split; [|split].
    + unfold first_run_boxcars.
      apply (boxcar_cell_ok 0 run_trs categories _ _ ["face"; "rest"]%string).
      * discriminate.
      * reflexivity.
      * intros t c _ H. apply label_is_in_range in H. simpl in H. unfold run_trs. lia.
    + reflexivity.
    + simpl. intros H. inversion H.
  - vm_compute. reflexivity.
  - reflexivity.
Qed.

(** C3, amended.  For every non-empty category list and every session whose
    first run has at most [run_trs] labels, the cell returns a
    [run_trs x num-categories] array ([run_trs] is the configured per-run
    length, 121 in the notebook) whose entry at timepoint [t] and category
    [c] is 1 exactly when the run has a label at [t] and it is the category
    string [c], and 0 otherwise.  The columns are those of the category list
    alone, so a label that is no category (the rest label) has no column and
    its row is zero, and a category that no label of the run carries yields
    a column of zeros, not an error. *)
Theorem boxcar_cell_indicator (run_id : Z) (rtrs : nat) (cats stimuli : list string)
    (runs : list Z) (labels : list string) :
  cats <> [] ->
  mask_index stimuli (runs_eq_0 runs) = Ok labels ->
  (List.length labels <= rtrs)%nat ->
  exists m,
    boxcar_cell run_id rtrs cats stimuli runs = Ok m /\
    shape m = (rtrs, List.length cats) /\
    wf_ndarray m /\
    (forall t c, (t < rtrs)%nat -> (c < List.length cats)%nat ->
       (nth_error labels t = Some (nth c cats EmptyString) -> entry m t c = 1) /\
       (nth_error labels t <> Some (nth c cats EmptyString) -> entry m t c = 0)) /\
    (forall t l, nth_error labels t = Some l -> ~ In l cats ->
       forall c, (c < List.length cats)%nat -> entry m t c = 0) /\
    (forall c, (c < List.length cats)%nat -> ~ In (nth c cats EmptyString) labels ->
       forall t, (t < rtrs)%nat -> entry m t c = 0).
Proof.
  intros Hne Hsel Hlen.
  assert (Hin : forall t c, In c cats -> label_is labels t c = true -> (t < rtrs)%nat).
  { intros t c _ H. apply label_is_in_range in H. lia. }
  exists (boxcar_matrix rtrs labels cats).
  split; [now apply boxcar_cell_ok|].
  split; [reflexivity|]. split; [apply boxcar_matrix_wf|].
  assert (Hentry : forall t c, (t < rtrs)%nat -> (c < List.length cats)%nat ->
            (nth_error labels t = Some (nth c cats EmptyString) ->
             entry (boxcar_matrix rtrs labels cats) t c = 1) /\
            (nth_error labels t <> Some (nth c cats EmptyString) ->
             entry (boxcar_matrix rtrs labels cats) t c = 0)).
  { intros t c Ht Hc. rewrite boxcar_matrix_entry by assumption.
    destruct (label_is labels t (nth c cats EmptyString)) eqn:E.
    - split; [reflexivity|]. apply label_is_spec in E. congruence.
    - split; [|reflexivity]. intros H. apply label_is_spec in H. congruence. }
  split; [exact Hentry|]. split.
  - intros t l Hl Hnot c Hc.
    apply Hentry; [|exact Hc|].
    + assert (t < List.length labels)%nat by (apply nth_error_Some; congruence). lia.
    + intros H. rewrite Hl in H. inversion H; subst. apply Hnot. now apply nth_In.
  - intros c Hc Hnot t Ht. apply Hentry; [exact Ht|exact Hc|].
    intros H. apply Hnot. eapply nth_error_In; eauto.
Qed.

Lemma boxcar_cell_indicator_witness :
  exists m,
    boxcar_cell 0 3 ["face"; "cat"]%string
                ["rest"; "face"; "cat"; "face"]%string [0; 0; 0; 1]%Z = Ok m /\
    shape m = (3, 2)%nat.
Proof.
  destruct (boxcar_cell_indicator 0 3 ["face"; "cat"]%string
              ["rest"; "face"; "cat"; "face"]%string [0; 0; 0; 1]%Z
              ["rest"; "face"; "cat"]%string) as [m [H1 [H2 _]]].
  - discriminate.
  - reflexivity.
  - simpl. lia.
  - exists m. split; assumption.
Defined.

(** The cell returns the first-run regressors whenever the session's label
    and run sequences are parallel and the first run has at most [run_trs]
    timepoints. *)
Lemma first_run_boxcars_total (stimuli : list string) (runs : list Z) :
  List.length stimuli = List.length runs ->
  (List.length (select stimuli (runs_eq_0 runs)) <= run_trs)%nat ->
  first_run_boxcars stimuli runs =
  Ok (boxcar_matrix run_trs (select stimuli (runs_eq_0 runs)) categories).
Proof.
  intros Hpar Hlen. unfold first_run_boxcars. apply boxcar_cell_ok.
  - discriminate.
  - now apply mask_index_parallel.
  - intros t c _ H. apply label_is_in_range in H. lia.
Qed.

(** A category label beyond [run_trs] timepoints makes the cell raise. *)
Example first_run_boxcars_overlong :
  boxcar_cell 0 2 categories ["rest"; "rest"; "face"]%string [0; 0; 0]%Z
  = Raise IndexError.
Proof. reflexivity. Qed.

(** C6.  For every sequence of labels drawn from the categories and the rest
    tag, whenever the cell returns the first-run regressors, the sum across
    the boxcar columns at any timepoint is at most 1, and at every timepoint
    of the run that sum is 0 exactly when the label there is the rest tag. *)
Theorem boxcar_mutually_exclusive (stimuli : list string) (runs : list Z) (m : ndarray) :
  well_labelled stimuli ->
  first_run_boxcars stimuli runs = Ok m ->
  forall t,
    row_sum m t <= 1 /\
    forall label, nth_error (select stimuli (runs_eq_0 runs)) t = Some label ->
                  (row_sum m t == 0 <-> label = rest).
Proof.
  intros Hwl Hm t. unfold first_run_boxcars in Hm.
  apply boxcar_cell_inv in Hm. destruct Hm as [labels [Hsel [Hin ->]]].
  apply mask_index_inv in Hsel. subst labels.
  set (labels := select stimuli (runs_eq_0 runs)) in *.
  assert (Hcase : forall l, nth_error labels t = Some l ->
            (l = rest /\ row_sum (boxcar_matrix run_trs labels categories) t == 0) \/
            (l <> rest /\ row_sum (boxcar_matrix run_trs labels categories) t == 1)).
  { intros l Hl.
    assert (Hmem : In l stimuli).
    { apply (select_In _ (runs_eq_0 runs)). eapply nth_error_In; eauto. }
    unfold well_labelled in Hwl. rewrite Forall_forall in Hwl.
    destruct (Hwl l Hmem) as [->|Hcat].
    - left. split; [reflexivity|].
      destruct (Nat.lt_ge_cases t run_trs) as [Ht|Ht].
      + rewrite (boxcar_row_sum_labelled _ _ _ _ rest Ht Hl).
        apply indicator_sum_absent, rest_not_category.
      + unfold row_sum. rewrite boxcar_matrix_row_outside by exact Ht. reflexivity.
    - right. split.
      + intros ->. now apply rest_not_category.
      + assert (Ht : (t < run_trs)%nat).
        { apply (Hin t l Hcat). now apply label_is_spec. }
        rewrite (boxcar_row_sum_labelled _ _ _ _ l Ht Hl).
        apply indicator_sum_present; [apply categories_NoDup|exact Hcat]. }
  split.
  - destruct (nth_error labels t) as [l|] eqn:Hl.
    + destruct (Hcase l eq_refl) as [[_ H]|[_ H]]; rewrite H; discriminate.
    + rewrite boxcar_row_sum_unlabelled by exact Hl. discriminate.
  - intros label Hl. destruct (Hcase label Hl) as [[-> H]|[Hne H]].
    + split; auto.
    + rewrite H. split; [intros H0; discriminate H0|contradiction].
Qed.

Lemma boxcar_mutually_exclusive_witness :
  exists m,
    first_run_boxcars ["rest"; "face"; "house"; "cat"]%string [0; 0; 0; 1]%Z = Ok m /\
    row_sum m 0 == 0 /\ row_sum m 1 <= 1.
Proof.
  assert (Hm : first_run_boxcars ["rest"; "face"; "house"; "cat"]%string [0; 0; 0; 1]%Z =
               Ok (boxcar_matrix run_trs ["rest"; "face"; "house"]%string categories))
    by (vm_compute; reflexivity).
  assert (Hwl : well_labelled ["rest"; "face"; "house"; "cat"]%string).
  { unfold well_labelled, rest, categories.
    repeat (constructor; [simpl; tauto|]). constructor. }
  eexists. split; [exact Hm|]. split.
  - apply (proj2 (boxcar_mutually_exclusive _ _ _ Hwl Hm 0%nat) rest); reflexivity.
  - apply (proj1 (boxcar_mutually_exclusive _ _ _ Hwl Hm 1%nat)).
Defined.

(** C9.  The first-run boxcar construction reads the session only through
    the labels at the timepoints whose run index is 0: two sessions (each a
    pair of parallel label and run sequences) whose labels at those
    timepoints agree produce the same result, whatever the value of
    [run_id]. *)
Theorem boxcar_reads_first_run_only (run_id1 run_id2 : Z) (rtrs : nat)
    (cats : list string) (stimuli1 stimuli2 : list string) (runs1 runs2 : list Z) :
  List.length stimuli1 = List.length runs1 ->
  List.length stimuli2 = List.length runs2 ->
  select stimuli1 (runs_eq_0 runs1) = select stimuli2 (runs_eq_0 runs2) ->
  boxcar_cell run_id1 rtrs cats stimuli1 runs1 =
  boxcar_cell run_id2 rtrs cats stimuli2 runs2.
Proof.
  intros H1 H2 Hsel. unfold boxcar_cell.
  rewrite (boxcar_loop_selected rtrs stimuli1 runs1 _ cats []
             (mask_index_parallel stimuli1 runs1 H1)).
  rewrite (boxcar_loop_selected rtrs stimuli2 runs2 _ cats []
             (mask_index_parallel stimuli2 runs2 H2)).
  now rewrite Hsel.
Qed.

Lemma boxcar_reads_first_run_only_witness :
  boxcar_cell 0 3 categories ["face"; "rest"; "cat"]%string [0; 0; 1]%Z =
  boxcar_cell 7 3 categories ["house"; "face"; "shoe"; "rest"]%string [2; 0; 1; 0]%Z.
Proof.
  apply boxcar_reads_first_run_only; reflexivity.
Defined.

(* ------------------------------------------------------------------ *)
(** ** Rank percentiles *)

Lemma Qlt_bool_iff (x y : Q) : Qlt_bool x y = true <-> x < y.
Proof.
  unfold Qlt_bool. rewrite negb_true_iff, <- not_true_iff_false, Qle_bool_iff.
  split; [apply Qnot_le_lt|apply Qlt_not_le].
Qed.

Lemma count_mono (p q : Q -> bool) (a : array) :
  (forall y, In y a -> p y = true -> q y = true) ->
  (List.length (filter p a) <= List.length (filter q a))%nat.
Proof.
  induction a as [|y a IH]; intros H; simpl; [lia|].
  assert (IH' := IH (fun z Hz => H z (or_intror Hz))).
  destruct (p y) eqn:Ep.
  - rewrite (H y (or_introl eq_refl) Ep). simpl. lia.
  - destruct (q y); simpl; lia.
Qed.

Lemma count_mono_strict (p q : Q -> bool) (a : array) (x : Q) :
  (forall y, In y a -> p y = true -> q y = true) ->
  In x a -> p x = false -> q x = true ->
  (List.length (filter p a) < List.length (filter q a))%nat.
Proof.
  induction a as [|y a IH]; intros H Hin Hp Hq; simpl; [contradiction|].
  assert (Hmono := count_mono p q a (fun z Hz => H z (or_intror Hz))).
  destruct Hin as [->|Hin].
  - rewrite Hp, Hq. simpl. lia.
  - assert (IH' := IH (fun z Hz => H z (or_intror Hz)) Hin Hp Hq).
    destruct (p y) eqn:Ep.
    + rewrite (H y (or_introl eq_refl) Ep). simpl. lia.
    + destruct (q y); simpl; lia.
Qed.

Lemma count_le_bound (a : array) (x : Q) : (count_le a x <= List.length a)%nat.
Proof.
  unfold count_le. induction a as [|y a IH]; simpl; [lia|].
  destruct (Qle_bool y x); simpl; lia.
Qed.

Lemma count_lt_below_le (a : array) (x : Q) :
  In x a -> (count_lt a x < count_le a x)%nat.
Proof.
  intros Hin. unfold count_lt, count_le. apply count_mono_strict with (x := x).
  - intros y _ Hy. apply Qle_bool_iff, Qlt_le_weak. now apply Qlt_bool_iff.
  - exact Hin.
  - apply not_true_iff_false. rewrite Qlt_bool_iff. apply Qlt_irrefl.
  - apply Qle_bool_iff, Qle_refl.
Qed.

Lemma count_le_mono (a : array) (x y : Q) :
  x <= y -> (count_le a x <= count_le a y)%nat.
Proof.
  intros Hxy. apply count_mono. intros z _ Hz.
  apply Qle_bool_iff. apply Qle_bool_iff in Hz. eapply Qle_trans; eauto.
Qed.

Lemma count_le_below_lt (a : array) (x y : Q) :
  x < y -> (count_le a x <= count_lt a y)%nat.
Proof.
  intros Hxy. apply count_mono. intros z _ Hz.
  apply Qlt_bool_iff. apply Qle_bool_iff in Hz. eapply Qle_lt_trans; eauto.
Qed.

Lemma count_partition (p : Q -> bool) (a : array) :
  (List.length (filter p a) + List.length (filter (fun y => negb (p y)) a))%nat =
  List.length a.
Proof.
  induction a as [|y a IH]; simpl; [reflexivity|].
  destruct (p y); simpl; lia.
Qed.

Lemma exists_maximum (a : array) :
  a <> [] -> exists x, In x a /\ forall y, In y a -> y <= x.
Proof.
  induction a as [|z a IH]; intros Hne; [congruence|].
  destruct a as [|z' a'].
  - exists z. split; [now left|]. intros y [<-|[]]. apply Qle_refl.
  - destruct IH as [x [Hx Hmax]]; [discriminate|].
    destruct (Qlt_le_dec x z) as [Hlt|Hle].
    + exists z. split; [now left|]. intros y [<-|Hy]; [apply Qle_refl|].
      apply Qle_trans with x; [now apply Hmax|now apply Qlt_le_weak].
    + exists x. split; [now right|]. intros y [<-|Hy]; [exact Hle|now apply Hmax].
Qed.

Lemma filter_none (p : Q -> bool) (a : array) :
  (forall y, In y a -> p y = false) -> filter p a = [].
Proof.
  induction a as [|z a IH]; intros H; simpl; [reflexivity|].
  rewrite (H z (or_introl eq_refl)). apply IH. intros y Hy. apply H. now right.
Qed.

Lemma distinct_count_eq (a : array) (x : Q) :
  distinctb a = true -> In x a ->
  List.length (filter (fun y => Qeq_bool x y) a) = 1%nat.
Proof.
  induction a as [|z a IH]; intros Hd Hin; simpl in *; [contradiction|].
  apply andb_true_iff in Hd. destruct Hd as [Hz Hd].
  rewrite forallb_forall in Hz.
  destruct Hin as [->|Hin].
  - replace (Qeq_bool x x) with true
      by (symmetry; apply Qeq_bool_iff; reflexivity).
    simpl. f_equal.
    assert (E : filter (fun y => Qeq_bool x y) a = []).
    { apply filter_none. intros y Hy. apply negb_true_iff. now apply Hz. }
    now rewrite E.
  - assert (Hzx : Qeq_bool x z = false).
    { assert (Hx := Hz x Hin). apply negb_true_iff in Hx.
      apply not_true_iff_false. intros H. apply Qeq_bool_iff in H.
      apply not_true_iff_false in Hx. apply Hx. apply Qeq_bool_iff. now symmetry. }
    rewrite Hzx. now apply IH.
Qed.

Lemma count_lt_maximum (a : array) (x : Q) :
  distinctb a = true -> In x a -> (forall y, In y a -> y <= x) ->
  (count_lt a x + 1)%nat = List.length a.
Proof.
  intros Hd Hin Hmax. unfold count_lt.
  rewrite <- (count_partition (fun y => Qlt_bool y x) a). f_equal.
  rewrite <- (distinct_count_eq a x Hd Hin). f_equal.
  apply filter_ext_in. intros y Hy. unfold Qlt_bool. rewrite negb_involutive.
  apply eq_true_iff_eq. rewrite Qle_bool_iff, Qeq_bool_iff. split.
  - intros H. apply Qle_lteq. right. exact H.
  - intros H. apply Qle_antisym; [exact H|now apply Hmax].
Qed.

Lemma count_le_maximum (a : array) (x : Q) :
  (forall y, In y a -> y <= x) -> count_le a x = List.length a.
Proof.
  intros Hmax. unfold count_le.
  induction a as [|z a IH]; simpl; [reflexivity|].
  replace (Qle_bool z x) with true
    by (symmetry; apply Qle_bool_iff, Hmax; now left).
  simpl. f_equal. apply IH. intros y Hy. apply Hmax. now right.
Qed.

Lemma Qnat_add (n m : nat) : Qnat (n + m) == Qnat n + Qnat m.
Proof. unfold Qnat. now rewrite Nat2Z.inj_add, inject_Z_plus. Qed.

Lemma Qnat_le (n m : nat) : (n <= m)%nat -> Qnat n <= Qnat m.
Proof. intros H. unfold Qnat. rewrite <- Zle_Qle. lia. Qed.

Lemma Qnat_lt (n m : nat) : (n < m)%nat -> Qnat n < Qnat m.
Proof. intros H. unfold Qnat. rewrite <- Zlt_Qlt. lia. Qed.

Lemma Qnat_nonneg (n : nat) : 0 <= Qnat n.
Proof. apply (Qnat_le 0 n). lia. Qed.

Lemma Qnat_S (n : nat) : Qnat (S n) == Qnat n + 1.
Proof. rewrite <- Nat.add_1_r. apply Qnat_add. Qed.

Lemma average_rank_positive (a : array) (x : Q) : 0 < average_rank a x.
Proof.
  unfold average_rank.
  pose proof (Qnat_nonneg (count_le a x)). pose proof (Qnat_nonneg (count_lt a x)).
  lra.
Qed.

Lemma average_rank_bound (a : array) (x : Q) :
  In x a -> average_rank a x <= Qnat (List.length a).
Proof.
  intros Hin. unfold average_rank.
  pose proof (Qnat_le _ _ (count_le_bound a x)) as H1.
  pose proof (count_lt_below_le a x Hin) as H2.
  assert (H3 : Qnat (count_lt a x) + 1 <= Qnat (List.length a)).
  { rewrite <- Qnat_S. apply Qnat_le. pose proof (count_le_bound a x). lia. }
  lra.
Qed.

Lemma average_rank_increasing (a : array) (x y : Q) :
  In x a -> x < y -> average_rank a x < average_rank a y.
Proof.
  intros Hin Hxy. unfold average_rank.
  pose proof (Qnat_le _ _ (count_le_mono a x y (Qlt_le_weak _ _ Hxy))) as H1.
  pose proof (Qnat_le _ _ (count_le_below_lt a x y Hxy)) as H2.
  pose proof (Qnat_lt _ _ (count_lt_below_le a x Hin)) as H3.
  lra.
Qed.

Lemma average_rank_maximum (a : array) (x : Q) :
  distinctb a = true -> In x a -> (forall y, In y a -> y <= x) ->
  average_rank a x == Qnat (List.length a).
Proof.
  intros Hd Hin Hmax. unfold average_rank.
  rewrite (count_le_maximum a x Hmax).
  assert (E : Qnat (List.length a) == Qnat (count_lt a x) + 1).
  { rewrite <- (count_lt_maximum a x Hd Hin Hmax), Qnat_add. reflexivity. }
  lra.
Qed.

Lemma rank_percentile_nth (a : array) (i : nat) :
  (i < List.length a)%nat ->
  nth i (rank_percentile a) 0 =
  average_rank a (nth i a 0) / Qnat (List.length a) * 100.
Proof.
  intros Hi. unfold rank_percentile, rankdata. rewrite map_map.
  exact (nth_map_in_range (fun x => average_rank a x / Qnat (List.length a) * 100)
                          a 0 i Hi).
Qed.

Lemma percent_lt (n r1 r2 : Q) : 0 < n -> r1 < r2 -> r1 / n * 100 < r2 / n * 100.
Proof.
  intros Hn H. unfold Qdiv.
  apply Qmult_lt_compat_r; [reflexivity|].
  apply Qmult_lt_compat_r; [now apply Qinv_lt_0_compat|exact H].
Qed.

Lemma percent_le (n r1 r2 : Q) : 0 < n -> r1 <= r2 -> r1 / n * 100 <= r2 / n * 100.
Proof.
  intros Hn H. unfold Qdiv.
  apply Qmult_le_compat_r; [|discriminate].
  apply Qmult_le_compat_r; [exact H|].
  apply Qlt_le_weak. now apply Qinv_lt_0_compat.
Qed.

Lemma percent_full (n : Q) : 0 < n -> n / n * 100 == 100.
Proof.
  intros Hn. field. intros H. rewrite H in Hn. discriminate.
Qed.

(** C10.  For every nonempty array [a] with pairwise-distinct entries,
    [rank_percentile(a)] has the length of [a], its values lie in (0, 100],
    the value 100 is attained (so the maximum is exactly 100), and it is
    strictly order-preserving: [a[i] < a[j]] implies
    [rank_percentile(a)[i] < rank_percentile(a)[j]]. *)
Theorem rank_percentile_spec (a : array) :
  a <> [] ->
  distinctb a = true ->
  List.length (rank_percentile a) = List.length a /\
  (forall i, (i < List.length a)%nat ->
     0 < nth i (rank_percentile a) 0 /\ nth i (rank_percentile a) 0 <= 100) /\
  (exists i, (i < List.length a)%nat /\ nth i (rank_percentile a) 0 == 100) /\
  (forall i j, (i < List.length a)%nat -> (j < List.length a)%nat ->
     nth i a 0 < nth j a 0 ->
     nth i (rank_percentile a) 0 < nth j (rank_percentile a) 0).
Proof.
  intros Hne Hd.
  assert (Hn : 0 < Qnat (List.length a)).
  { apply (Qnat_lt 0). destruct a; [congruence|simpl; lia]. }
  split; [unfold rank_percentile, rankdata; now rewrite !length_map|].
  split; [|split].
  - intros i Hi. rewrite rank_percentile_nth by exact Hi.
    set (x := nth i a 0). assert (Hx : In x a) by now apply nth_In.
    split.
    + assert (H0 : 0 / Qnat (List.length a) * 100 == 0) by (unfold Qdiv; ring).
      rewrite <- H0. apply percent_lt; [exact Hn|apply average_rank_positive].
    + rewrite <- (percent_full _ Hn) at 2.
      apply percent_le; [exact Hn|now apply average_rank_bound].
  - destruct (exists_maximum a Hne) as [x [Hx Hmax]].
    destruct (In_nth a x 0 Hx) as [i [Hi Hnth]].
    exists i. split; [exact Hi|].
    rewrite rank_percentile_nth by exact Hi. rewrite Hnth.
    rewrite (average_rank_maximum a x Hd Hx Hmax). now apply percent_full.
  - intros i j Hi Hj Hlt.
    rewrite !rank_percentile_nth by assumption.
    apply percent_lt; [exact Hn|].
    apply average_rank_increasing; [now apply nth_In|exact Hlt].
Qed.

Lemma rank_percentile_spec_witness :
  List.length (rank_percentile [3; 1 # 2; 7; -2]) = 4%nat /\
  array_eq (rank_percentile [3; 1 # 2; 7; -2]) [75; 50; 100; 25].
Proof.
  split.
  - apply (rank_percentile_spec [3; 1 # 2; 7; -2]).
    + discriminate.
    + reflexivity.
  - repeat constructor.
Defined.

(* ------------------------------------------------------------------ *)
(** ** HRF convolution *)

Lemma Qsum_map_ext {A : Type} (f g : A -> Q) (l : list A) :
  (forall k, f k == g k) -> Qsum (map f l) == Qsum (map g l).
Proof.
  intros H. induction l as [|k l IH]; simpl; [reflexivity|].
  now rewrite IH, H.
Qed.

Lemma Qsum_map_add {A : Type} (f g : A -> Q) (l : list A) :
  Qsum (map (fun k => f k + g k) l) == Qsum (map f l) + Qsum (map g l).
Proof.
  induction l as [|k l IH]; simpl; [reflexivity|].
  rewrite IH. ring.
Qed.

Lemma Qsum_map_scale {A : Type} (f : A -> Q) (c : Q) (l : list A) :
  Qsum (map (fun k => f k * c) l) == Qsum (map f l) * c.
Proof.
  induction l as [|k l IH]; simpl; [ring|].
  rewrite IH. ring.
Qed.

Lemma firstn_seq_from (n start len : nat) :
  firstn n (seq start len) = seq start (Nat.min n len).
Proof.
  revert start len. induction n as [|n IH]; intros start [|len]; simpl; auto.
  now rewrite IH.
Qed.

Lemma array_eq_map {A : Type} (f g : A -> Q) (l : list A) :
  (forall t, f t == g t) -> array_eq (map f l) (map g l).
Proof.
  intros H. induction l as [|t l IH]; simpl; constructor; auto.
Qed.

Lemma array_add_length (a b : array) :
  List.length a = List.length b -> List.length (array_add a b) = List.length a.
Proof.
  intros H. unfold array_add. rewrite length_map, length_combine. lia.
Qed.

Lemma array_add_nth (a b : array) (k : nat) :
  List.length a = List.length b ->
  nth k (array_add a b) 0 == nth k a 0 + nth k b 0.
Proof.
  revert b k. induction a as [|x a IH]; intros [|y b] k H; simpl in H; try lia.
  - destruct k; reflexivity.
  - destruct k as [|k]; simpl; [reflexivity|].
    apply IH. lia.
Qed.

Lemma array_add_maps {A : Type} (f g : A -> Q) (l : list A) :
  array_add (map f l) (map g l) = map (fun t => f t + g t) l.
Proof.
  unfold array_add. induction l as [|t l IH]; simpl; [reflexivity|].
  now rewrite IH.
Qed.

Lemma conv_at_add (b1 b2 h : array) (n : nat) :
  List.length b1 = List.length b2 ->
  conv_at (array_add b1 b2) h n == conv_at b1 h n + conv_at b2 h n.
Proof.
  intros H. unfold conv_at. rewrite <- Qsum_map_add.
  apply Qsum_map_ext. intros k. rewrite (array_add_nth b1 b2 k H). ring.
Qed.

Lemma hrf_convolve_samples (b h : array) :
  hrf_convolve b h =
  map (conv_at b h)
      (seq 0 (Nat.min (List.length b) (List.length b + List.length h - 1))).
Proof.
  unfold hrf_convolve, convolve_full. now rewrite firstn_map, firstn_seq_from.
Qed.

(** C4.  For boxcar columns [b1] and [b2] of equal length and any HRF
    kernel, the convolver (full linear convolution truncated to the input
    length) satisfies superposition:
    [convolve(b1 + b2, hrf) = convolve(b1, hrf) + convolve(b2, hrf)]. *)
Theorem hrf_convolve_superposition (b1 b2 hrf : array) :
  List.length b1 = List.length b2 ->
  array_eq (hrf_convolve (array_add b1 b2) hrf)
           (array_add (hrf_convolve b1 hrf) (hrf_convolve b2 hrf)).
Proof.
  intros H. rewrite !hrf_convolve_samples.
  rewrite (array_add_length b1 b2 H), <- H, array_add_maps.
  apply array_eq_map. intros t. now apply conv_at_add.
Qed.

Lemma hrf_convolve_superposition_witness :
  array_eq (hrf_convolve (array_add [1; 1; 0; 0] [0; 0; 0; 1]) [1 # 2; 1; 1 # 4])
           (array_add (hrf_convolve [1; 1; 0; 0] [1 # 2; 1; 1 # 4])
                      (hrf_convolve [0; 0; 0; 1] [1 # 2; 1; 1 # 4])).
Proof.
  apply hrf_convolve_superposition. reflexivity.
Defined.

Example hrf_convolve_block :
  array_eq (hrf_convolve [1; 1; 0; 0] [1 # 2; 1; 1 # 4]) [1 # 2; 3 # 2; 5 # 4; 1 # 4].
Proof. repeat constructor. Qed.

(* ------------------------------------------------------------------ *)
(** ** Contrasts *)

Lemma array_eq_map_in {A : Type} (f g : A -> Q) (l : list A) :
  (forall t, In t l -> f t == g t) -> array_eq (map f l) (map g l).
Proof.
  intros H. induction l as [|t l IH]; simpl; constructor.
  - apply H. now left.
  - apply IH. intros t' Ht'. apply H. now right.
Qed.

Lemma contrast_sum_shift (c : array) (rws : list array) (v ncols : nat) (K : Q) :
  List.length c = List.length rws ->
  Forall (fun r => List.length r = ncols) rws ->
  (v < ncols)%nat ->
  Qsum (map (fun p => fst p * nth v (snd p) 0)
            (combine c (map (map (fun x => x + K)) rws))) ==
  Qsum (map (fun p => fst p * nth v (snd p) 0) (combine c rws)) + K * Qsum c.
Proof.
  revert rws. induction c as [|ci c IH]; intros [|r rws] Hlen Hall Hv;
    simpl in Hlen; try lia; simpl.
  - ring.
  - pose proof (Forall_inv Hall) as Hr. pose proof (Forall_inv_tail Hall) as Hrs.
    simpl in Hr. rewrite (IH rws) by (assumption || lia).
    rewrite (nth_map_in_range (fun x => x + K) r 0 v) by lia.
    ring.
Qed.

Lemma interest_block_wf (k : nat) (beta : ndarray) :
  wf_ndarray beta -> wf_ndarray (interest_block k beta).
Proof.
  intros [Hr Hc]. split; simpl.
  - now rewrite length_firstn, Hr.
  - rewrite Forall_forall in *. intros r Hin. apply Hc.
    rewrite <- (firstn_skipn k (rows beta)). apply in_or_app. now left.
Qed.

Lemma contrast_map_shift (c : array) (beta : ndarray) (K : Q) :
  wf_ndarray beta ->
  List.length c = fst (shape beta) ->
  Qsum c == 0 ->
  exists shifted plain,
    contrast_map c (beta_shift K beta) = Ok shifted /\
    contrast_map c beta = Ok plain /\
    array_eq shifted plain.
Proof.
  intros [Hr Hc] Hlen Hsum. unfold contrast_map. simpl.
  rewrite Hlen, Nat.eqb_refl. do 2 eexists. split; [reflexivity|].
  split; [reflexivity|].
  apply array_eq_map_in. intros v Hv. apply in_seq in Hv.
  assert (Hrows : List.length c = List.length (rows beta)) by (rewrite Hr; exact Hlen).
  assert (Hv' : (v < snd (shape beta))%nat) by lia.
  rewrite (contrast_sum_shift c (rows beta) v (snd (shape beta)) K Hrows Hc Hv').
  rewrite Hsum, Qmult_0_r, Qplus_0_r. reflexivity.
Qed.

(** C7.  For every contrast vector [c] whose entries sum to zero, every
    beta matrix and every constant [K], the contrast map of the betas of the
    interest columns shifted by [K] equals the contrast map of the unshifted
    betas: [c^T (beta + K 1) = c^T beta]. *)
Theorem contrast_shift_invariant (k : nat) (c : array) (beta : ndarray) (K : Q) :
  wf_ndarray beta ->
  (k <= fst (shape beta))%nat ->
  List.length c = k ->
  Qsum c == 0 ->
  exists shifted plain,
    contrast_map c (beta_shift K (interest_block k beta)) = Ok shifted /\
    contrast_map c (interest_block k beta) = Ok plain /\
    array_eq shifted plain.
Proof.
  intros Hwf Hk Hlen Hsum. apply contrast_map_shift.
  - now apply interest_block_wf.
  - simpl. lia.
  - exact Hsum.
Qed.

Lemma contrast_shift_invariant_witness :
  exists shifted plain,
    contrast_map [1; -1 # 2; -1 # 2]
      (beta_shift 5 (interest_block 3
         {| shape := (4, 2)%nat; rows := [[2; 0]; [1; 3]; [4; 1]; [9; 9]] |})) = Ok shifted /\
    contrast_map [1; -1 # 2; -1 # 2]
      (interest_block 3
         {| shape := (4, 2)%nat; rows := [[2; 0]; [1; 3]; [4; 1]; [9; 9]] |}) = Ok plain /\
    array_eq shifted plain.
Proof.
  apply contrast_shift_invariant.
  - split; simpl; [reflexivity|repeat constructor].
  - simpl. lia.
  - reflexivity.
  - reflexivity.
Defined.

(* ------------------------------------------------------------------ *)
(** ** Design matrix assembly *)

Lemma total_rows (blocks : list ndarray) (run_len : nat) :
  Forall (fun b => fst (shape b) = run_len) blocks ->
  fold_right (fun b n => (fst (shape b) + n)%nat) 0%nat blocks =
  (List.length blocks * run_len)%nat.
Proof.
  induction blocks as [|b blocks IH]; intros H; simpl; [reflexivity|].
  rewrite (Forall_inv H), IH by exact (Forall_inv_tail H). reflexivity.
Qed.

Lemma vstack_ok (blocks : list ndarray) (run_len k : nat) :
  blocks <> [] ->
  Forall (fun b => shape b = (run_len, k)) blocks ->
  vstack blocks =
  Ok {| shape := ((List.length blocks * run_len)%nat, k);
        rows := concat (map rows blocks) |}.
Proof.
  intros Hne Hall. destruct blocks as [|b0 rest]; [congruence|].
  unfold vstack.
  assert (H0 : shape b0 = (run_len, k)) by exact (Forall_inv Hall).
  replace (forallb _ rest) with true.
  - rewrite total_rows with (run_len := run_len).
    + now rewrite H0.
    + eapply Forall_impl; [|exact Hall]. intros b Hb. simpl in Hb. now rewrite Hb.
  - symmetry. apply forallb_forall. intros b Hb.
    pose proof (Forall_inv_tail Hall) as Hr. rewrite Forall_forall in Hr.
    rewrite (Hr b Hb), H0. apply Nat.eqb_refl.
Qed.

Lemma polynomial_detrender_ok (n D : nat) :
  n <> 1%nat ->
  polynomial_detrender n D =
  Ok {| shape := (n, S D);
        rows := map (fun t => map (fun k => eval_legendre k (nth t (linspace (-1) 1 n) 0))
                                  (seq 0 (S D)))
                    (seq 0 n) |}.
Proof.
  intros Hn. unfold polynomial_detrender.
  apply Nat.eqb_neq in Hn. rewrite Hn.
  rewrite (column_stack_ok n).
  - rewrite length_map, length_seq. do 2 f_equal.
    apply map_ext_in. intros t Ht. apply in_seq in Ht.
    rewrite map_map. apply map_ext. intros k.
    apply nth_map_in_range. rewrite linspace_length. lia.
  - discriminate.
  - apply Forall_forall. intros c Hc. apply in_map_iff in Hc.
    destruct Hc as [k [<- _]]. now rewrite length_map, linspace_length.
Qed.

Lemma polynomial_detrender_single_timepoint (D : nat) :
  polynomial_detrender 1 D = Raise InvalidInput.
Proof. reflexivity. Qed.

Lemma concat_rows_length (blocks : list ndarray) (run_len : nat) :
  Forall (fun b => List.length (rows b) = run_len) blocks ->
  List.length (concat (map rows blocks)) = (List.length blocks * run_len)%nat.
Proof.
  induction blocks as [|b blocks IH]; intros H; simpl; [reflexivity|].
  rewrite length_app, (Forall_inv H), IH by exact (Forall_inv_tail H). reflexivity.
Qed.

Lemma concat_rows_width (blocks : list ndarray) (k : nat) :
  Forall (fun b => Forall (fun r => List.length r = k) (rows b)) blocks ->
  Forall (fun r => List.length r = k) (concat (map rows blocks)).
Proof.
  induction blocks as [|b blocks IH]; intros H; simpl; [constructor|].
  apply Forall_app. split; [exact (Forall_inv H)|apply IH; exact (Forall_inv_tail H)].
Qed.

Lemma assemble_design_ragged (run_len : nat) (cats : list string) (D : nat)
    (blocks : list ndarray) (b : ndarray) :
  In b blocks -> fst (shape b) <> run_len ->
  assemble_design run_len cats D blocks = Raise ShapeMismatch.
Proof.
  intros Hin Hlen. unfold assemble_design.
  destruct (forallb _ blocks) eqn:E; [|reflexivity].
  rewrite forallb_forall in E. specialize (E b Hin).
  apply andb_true_iff in E. destruct E as [E _]. apply Nat.eqb_eq in E. congruence.
Qed.

(** C5.  For every design matrix assembled over [R] runs of per-run length
    [L] with [k] categories and detrend degree [D], the total row count is
    [R x L] and the column count is [k + (D+1)]: the assembly of [R >= 1]
    well-formed [L x k] blocks (more than one timepoint in all, zero
    timepoints included) returns a well-formed array of that shape, with one
    tag per column, [k] of them of interest.  In particular a single run of
    length [L] gives [L x (k+D+1)] and 12 runs of 121 timepoints give
    [1452 x (k+D+1)]. *)
Theorem design_matrix_shape (run_len : nat) (cats : list string) (D : nat)
    (blocks : list ndarray) :
  blocks <> [] ->
  Forall (fun b => shape b = (run_len, List.length cats) /\ wf_ndarray b) blocks ->
  (List.length blocks * run_len)%nat <> 1%nat ->
  exists X tags,
    assemble_design run_len cats D blocks = Ok (X, tags) /\
    shape X = ((List.length blocks * run_len)%nat, (List.length cats + (D + 1))%nat) /\
    wf_ndarray X /\
    List.length tags = (List.length cats + (D + 1))%nat /\
    List.length (filter is_interest tags) = List.length cats.
Proof.
  intros Hne Hall Hrows.
  assert (Hshape : Forall (fun b => shape b = (run_len, List.length cats)) blocks)
    by (eapply Forall_impl; [|exact Hall]; intros b Hb; exact (proj1 Hb)).
  assert (Hlen : Forall (fun b => List.length (rows b) = run_len) blocks).
  { eapply Forall_impl; [|exact Hall]. intros b [Hs [Hr _]]. rewrite Hr, Hs. reflexivity. }
  assert (Hwid : Forall (fun b => Forall (fun r => List.length r = List.length cats)
                                         (rows b)) blocks).
  { eapply Forall_impl; [|exact Hall]. intros b [Hs [_ Hc]]. rewrite Hs in Hc. exact Hc. }
  unfold assemble_design.
  replace (forallb _ blocks) with true.
  - rewrite (vstack_ok blocks run_len (List.length cats) Hne Hshape).
    cbn [bind shape fst snd].
    rewrite (polynomial_detrender_ok _ D Hrows). cbn [bind shape fst snd rows].
    unfold hstack. cbn [shape fst snd rows]. rewrite Nat.eqb_refl. cbn [bind].
    replace (S D) with (D + 1)%nat by lia.
    do 2 eexists. split; [reflexivity|]. split; [reflexivity|].
    split; [|split].
    + split; cbn [rows shape fst snd].
      * rewrite length_map, length_combine, (concat_rows_length blocks run_len Hlen).
        rewrite length_map, length_seq. lia.
      * apply Forall_forall. intros r Hr. apply in_map_iff in Hr.
        destruct Hr as [[u w] [<- Hin]]. cbn [fst snd]. rewrite length_app.
        pose proof (in_combine_l _ _ _ _ Hin) as Hu.
        pose proof (in_combine_r _ _ _ _ Hin) as Hw.
        pose proof (concat_rows_width blocks (List.length cats) Hwid) as Hk.
        rewrite Forall_forall in Hk. rewrite (Hk u Hu).
        apply in_map_iff in Hw. destruct Hw as [t [<- _]].
        rewrite length_map, length_seq. lia.
    + unfold arange. rewrite length_app, !length_map, length_seq. lia.
    + rewrite filter_app.
      assert (E1 : forall l, filter is_interest (map Interest l) = map Interest l)
        by (induction l as [|c l IH]; simpl; [|rewrite IH]; reflexivity).
      assert (E2 : forall l, filter is_interest (map Confound l) = [])
        by (induction l as [|c l IH]; simpl; auto).
      now rewrite E1, E2, app_nil_r, length_map.
  - symmetry. apply forallb_forall. intros b Hb. rewrite Forall_forall in Hshape.
    rewrite (Hshape b Hb). simpl. now rewrite !Nat.eqb_refl.
Qed.

Lemma zero_block_wf (run_len k : nat) : wf_ndarray (zero_block run_len k).
Proof.
  split; simpl; [apply repeat_length|].
  apply Forall_forall. intros r Hr. apply repeat_spec in Hr. subst r.
  apply repeat_length.
Qed.

Lemma design_matrix_shape_witness :
  (exists X tags,
     assemble_design run_trs categories 4
       (repeat (zero_block run_trs n_categories) n_runs) = Ok (X, tags) /\
     shape X = (1452, 13)%nat) /\
  (exists X tags,
     assemble_design run_trs categories 4 [zero_block run_trs n_categories]
       = Ok (X, tags) /\
     shape X = (121, 13)%nat).
Proof.
  split.
  - destruct (design_matrix_shape run_trs categories 4
                (repeat (zero_block run_trs n_categories) n_runs))
      as [X [tags [H1 [H2 _]]]].
    + discriminate.
    + apply Forall_forall. intros b Hb. apply repeat_spec in Hb. subst b.
      split; [reflexivity|apply zero_block_wf].
    + simpl. lia.
    + exists X, tags. split; [exact H1|exact H2].
  - destruct (design_matrix_shape run_trs categories 4
                [zero_block run_trs n_categories])
      as [X [tags [H1 [H2 _]]]].
    + discriminate.
    + constructor; [|constructor]. split; [reflexivity|apply zero_block_wf].
    + simpl. lia.
    + exists X, tags. split; [exact H1|exact H2].
Defined.

(** A single run of a single timepoint cannot be detrended. *)
Example design_matrix_single_timepoint :
  assemble_design 1 categories 4 [zero_block 1 n_categories] = Raise InvalidInput.
Proof. reflexivity. Qed.

(* ------------------------------------------------------------------ *)
(** ** Least squares and rank deficiency *)

(** *** Rank of a matrix with two identical columns *)

Lemma nth_map_seq {A : Type} (F : nat -> A) (len t : nat) (d : A) :
  (t < len)%nat -> nth t (map F (seq 0 len)) d = F t.
Proof.
  intros Ht. rewrite (nth_indep _ d (F 0%nat)) by now rewrite length_map, length_seq.
  rewrite (map_nth F). now rewrite seq_nth.
Qed.

Lemma nth_map_combine (f : Q * Q -> Q) (a b : array) (k : nat) :
  (k < List.length a)%nat -> (k < List.length b)%nat ->
  nth k (map f (combine a b)) 0 = f (nth k a 0, nth k b 0).
Proof.
  revert b k. induction a as [|x a IH]; intros [|y b] k Ha Hb; simpl in *; try lia.
  destruct k as [|k]; [reflexivity|]. apply IH; lia.
Qed.

Lemma rect_nth (n : nat) (m : mat) (t : nat) :
  rect n m -> (t < List.length m)%nat -> List.length (nth t m []) = n.
Proof.
  intros H Ht. unfold rect in H. rewrite Forall_forall in H. apply H. now apply nth_In.
Qed.

Lemma find_pivot_none (m : mat) (i r j : nat) :
  find_pivot m i r j = None ->
  forall t, (t < List.length m)%nat -> (r <= i + t)%nat -> nth j (nth t m []) 0 == 0.
Proof.
  revert i. induction m as [|row m IH]; intros i H t Ht Hr; simpl in *; [lia|].
  destruct ((r <=? i)%nat && negb (Qeq_bool (nth j row 0) 0)) eqn:E; [discriminate|].
  destruct t as [|t].
  - apply andb_false_iff in E. destruct E as [E|E].
    + apply Nat.leb_gt in E. lia.
    + apply negb_false_iff in E. now apply Qeq_bool_iff.
  - apply (IH (S i) H); lia.
Qed.

Lemma find_pivot_some (m : mat) (i r j p : nat) :
  find_pivot m i r j = Some p ->
  (i <= p)%nat /\ (p - i < List.length m)%nat /\ (r <= p)%nat /\
  ~ nth j (nth (p - i) m []) 0 == 0.
Proof.
  revert i. induction m as [|row m IH]; intros i H; simpl in *; [discriminate|].
  destruct ((r <=? i)%nat && negb (Qeq_bool (nth j row 0) 0)) eqn:E.
  - inversion H; subst. apply andb_true_iff in E. destruct E as [E1 E2].
    apply Nat.leb_le in E1. apply negb_true_iff in E2.
    rewrite Nat.sub_diag. repeat split; try lia.
    intros Hq. apply Qeq_bool_iff in Hq. congruence.
  - destruct (IH (S i) H) as [H1 [H2 [H3 H4]]].
    repeat split; try lia.
    replace (p - i)%nat with (S (p - S i)) by lia. exact H4.
Qed.

Lemma swap_rows_length (m : mat) (r p : nat) :
  List.length (swap_rows m r p) = List.length m.
Proof. unfold swap_rows. now rewrite length_map, length_seq. Qed.

Lemma swap_rows_nth (m : mat) (r p t : nat) :
  (t < List.length m)%nat ->
  nth t (swap_rows m r p) [] =
  if (t =? r)%nat then nth p m [] else if (t =? p)%nat then nth r m [] else nth t m [].
Proof. intros Ht. unfold swap_rows. now rewrite nth_map_seq. Qed.

Lemma swap_rows_outside (m : mat) (r p t : nat) :
  (List.length m <= t)%nat -> nth t (swap_rows m r p) [] = [].
Proof. intros Ht. apply nth_overflow. now rewrite swap_rows_length. Qed.

Lemma swap_rows_rect (n : nat) (m : mat) (r p : nat) :
  rect n m -> (r < List.length m)%nat -> (p < List.length m)%nat ->
  rect n (swap_rows m r p).
Proof.
  intros H Hr Hp. unfold rect. apply Forall_forall. intros row Hin.
  apply (In_nth _ _ []) in Hin. destruct Hin as [t [Ht <-]].
  rewrite swap_rows_length in Ht. rewrite swap_rows_nth by exact Ht.
  destruct (t =? r)%nat; [|destruct (t =? p)%nat]; now apply rect_nth.
Qed.

Lemma swap_rows_cols_equal (m : mat) (r p i j : nat) :
  cols_equal m i j -> cols_equal (swap_rows m r p) i j.
Proof.
  intros H t. destruct (Nat.lt_ge_cases t (List.length m)) as [Ht|Ht].
  - rewrite swap_rows_nth by exact Ht.
    destruct (t =? r)%nat; [|destruct (t =? p)%nat]; apply H.
  - rewrite swap_rows_outside by exact Ht. destruct i, j; reflexivity.
Qed.

Lemma swap_rows_col_zero (m : mat) (r p j : nat) :
  (r <= p)%nat -> col_zero_from m r j -> col_zero_from (swap_rows m r p) r j.
Proof.
  intros Hrp H t Hrt. destruct (Nat.lt_ge_cases t (List.length m)) as [Ht|Ht].
  - rewrite swap_rows_nth by exact Ht.
    destruct (t =? r)%nat; [|destruct (t =? p)%nat]; apply H; lia.
  - rewrite swap_rows_outside by exact Ht. destruct j; reflexivity.
Qed.

Lemma eliminate_length (m : mat) (r c : nat) :
  List.length (eliminate m r c) = List.length m.
Proof. unfold eliminate. now rewrite length_map, length_seq. Qed.

Lemma eliminate_outside (m : mat) (r c t : nat) :
  (List.length m <= t)%nat -> nth t (eliminate m r c) [] = [].
Proof. intros Ht. apply nth_overflow. now rewrite eliminate_length. Qed.

Lemma scaled_row_entry (prow : array) (d : Q) (k : nat) :
  nth k (map (fun x => Qred (x / d)) prow) 0 == nth k prow 0 / d.
Proof.
  destruct (Nat.lt_ge_cases k (List.length prow)) as [Hk|Hk].
  - rewrite (nth_map_in_range (fun x => Qred (x / d)) prow 0 k Hk).
    apply Qred_correct.
  - rewrite !nth_overflow by (rewrite ?length_map; exact Hk).
    unfold Qdiv. ring.
Qed.

Lemma eliminate_pivot_row (m : mat) (r c k : nat) :
  (r < List.length m)%nat ->
  nth k (nth r (eliminate m r c) []) 0 == nth k (nth r m []) 0 / nth c (nth r m []) 0.
Proof.
  intros Hr. unfold eliminate. rewrite nth_map_seq by exact Hr.
  rewrite Nat.eqb_refl. apply scaled_row_entry.
Qed.

Lemma eliminate_other_row (n : nat) (m : mat) (r c t k : nat) :
  rect n m -> (r < List.length m)%nat -> (t < List.length m)%nat -> t <> r ->
  (k < n)%nat ->
  nth k (nth t (eliminate m r c) []) 0 ==
  nth k (nth t m []) 0 -
  nth c (nth t m []) 0 * (nth k (nth r m []) 0 / nth c (nth r m []) 0).
Proof.
  intros Hrect Hr Ht Hne Hk. unfold eliminate. rewrite nth_map_seq by exact Ht.
  apply Nat.eqb_neq in Hne. rewrite Hne.
  rewrite nth_map_combine.
  - cbn [fst snd]. rewrite Qred_correct, scaled_row_entry. reflexivity.
  - now rewrite (rect_nth n m t Hrect Ht).
  - now rewrite length_map, (rect_nth n m r Hrect Hr).
Qed.

Lemma eliminate_rect (n : nat) (m : mat) (r c : nat) :
  rect n m -> (r < List.length m)%nat -> rect n (eliminate m r c).
Proof.
  intros H Hr. unfold rect. apply Forall_forall. intros row Hin.
  apply (In_nth _ _ []) in Hin. destruct Hin as [t [Ht <-]].
  rewrite eliminate_length in Ht. unfold eliminate. rewrite nth_map_seq by exact Ht.
  destruct (t =? r)%nat.
  - now rewrite length_map, (rect_nth n m r H Hr).
  - rewrite length_map, length_combine, length_map.
    rewrite (rect_nth n m t H Ht), (rect_nth n m r H Hr). lia.
Qed.

Lemma eliminate_cols_equal (n : nat) (m : mat) (r c i j : nat) :
  rect n m -> (r < List.length m)%nat -> (i < n)%nat -> (j < n)%nat ->
  cols_equal m i j -> cols_equal (eliminate m r c) i j.
Proof.
  intros Hrect Hr Hi Hj H t.
  destruct (Nat.lt_ge_cases t (List.length m)) as [Ht|Ht].
  - destruct (Nat.eq_dec t r) as [->|Hne].
    + rewrite !eliminate_pivot_row by exact Hr. now rewrite (H r).
    + rewrite (eliminate_other_row n m r c t i), (eliminate_other_row n m r c t j)
        by assumption.
      now rewrite (H t), (H r).
  - rewrite eliminate_outside by exact Ht. destruct i, j; reflexivity.
Qed.

Lemma eliminate_col_zero (n : nat) (m : mat) (r c j : nat) :
  rect n m -> (r < List.length m)%nat -> (j < n)%nat ->
  col_zero_from m r j -> col_zero_from (eliminate m r c) (S r) j.
Proof.
  intros Hrect Hr Hj H t Hrt.
  destruct (Nat.lt_ge_cases t (List.length m)) as [Ht|Ht].
  - rewrite (eliminate_other_row n m r c t j) by (assumption || lia).
    rewrite (H t), (H r) by lia. unfold Qdiv. ring.
  - rewrite eliminate_outside by exact Ht. destruct j; reflexivity.
Qed.

Lemma eliminate_clears_pivot_column (n : nat) (m : mat) (r c : nat) :
  rect n m -> (r < List.length m)%nat -> (c < n)%nat ->
  ~ nth c (nth r m []) 0 == 0 ->
  col_zero_from (eliminate m r c) (S r) c.
Proof.
  intros Hrect Hr Hc Hpiv t Hrt.
  destruct (Nat.lt_ge_cases t (List.length m)) as [Ht|Ht].
  - rewrite (eliminate_other_row n m r c t c) by (assumption || lia).
    field. exact Hpiv.
  - rewrite eliminate_outside by exact Ht. destruct c; reflexivity.
Qed.

(** One elimination step, as [gauss_jordan] performs it. *)
Lemma pivot_step (n : nat) (m : mat) (r c p : nat) :
  rect n m -> (c < n)%nat -> find_pivot m 0 r c = Some p ->
  let m' := eliminate (swap_rows m r p) r c in
  rect n m' /\
  col_zero_from m' (S r) c /\
  (forall j, (j < n)%nat -> col_zero_from m r j -> col_zero_from m' (S r) j) /\
  (forall i j, (i < n)%nat -> (j < n)%nat -> cols_equal m i j -> cols_equal m' i j).
Proof.
  intros Hrect Hc Hp.
  destruct (find_pivot_some m 0 r c p Hp) as [_ [Hlen [Hrp Hnz]]].
  rewrite Nat.sub_0_r in Hlen, Hnz.
  assert (Hr : (r < List.length m)%nat) by lia.
  assert (Hrect' : rect n (swap_rows m r p)) by now apply swap_rows_rect.
  assert (Hr' : (r < List.length (swap_rows m r p))%nat) by now rewrite swap_rows_length.
  simpl. split; [|split; [|split]].
  - now apply eliminate_rect.
  - apply (eliminate_clears_pivot_column n); try assumption.
    rewrite swap_rows_nth by exact Hr. now rewrite Nat.eqb_refl.
  - intros j Hj Hz. apply (eliminate_col_zero n); try assumption.
    now apply swap_rows_col_zero.
  - intros i j Hi Hj He. apply (eliminate_cols_equal n); try assumption.
    now apply swap_rows_cols_equal.
Qed.

Lemma no_pivot_in_zero_column (m : mat) (r j : nat) :
  col_zero_from m r j -> find_pivot m 0 r j = None.
Proof.
  intros Hz. destruct (find_pivot m 0 r j) as [p|] eqn:E; [|reflexivity].
  destruct (find_pivot_some m 0 r j p E) as [_ [_ [Hrp Hnz]]].
  rewrite Nat.sub_0_r in Hnz. exfalso. apply Hnz. now apply Hz.
Qed.

Lemma gauss_jordan_count (cols : list nat) (r : nat) (m : mat) (piv : list (nat * nat)) :
  (List.length (snd (gauss_jordan cols r m piv)) <= List.length piv + List.length cols)%nat.
Proof.
  revert r m piv. induction cols as [|c cols IH]; intros r m piv; simpl; [lia|].
  destruct (find_pivot m 0 r c) as [p|].
  - specialize (IH (S r) (eliminate (swap_rows m r p) r c) (piv ++ [(r, c)])%list).
    rewrite length_app in IH. simpl in IH. lia.
  - specialize (IH r m piv). lia.
Qed.

Lemma gauss_jordan_skips_zero_column (n : nat) (cols : list nat) (r : nat) (m : mat)
    (piv : list (nat * nat)) (j : nat) :
  rect n m -> Forall (fun c => (c < n)%nat) cols -> In j cols ->
  col_zero_from m r j ->
  (List.length (snd (gauss_jordan cols r m piv)) < List.length piv + List.length cols)%nat.
Proof.
  revert r m piv. induction cols as [|c cols IH]; intros r m piv Hrect Hcols Hin Hz;
    simpl in *; [contradiction|].
  pose proof (Forall_inv Hcols) as Hc. pose proof (Forall_inv_tail Hcols) as Hcs.
  destruct (Nat.eq_dec c j) as [->|Hne].
  - rewrite (no_pivot_in_zero_column m r j Hz).
    pose proof (gauss_jordan_count cols r m piv). lia.
  - assert (Hin' : In j cols) by (destruct Hin; [congruence|assumption]).
    assert (Hj : (j < n)%nat) by (rewrite Forall_forall in Hcs; now apply Hcs).
    destruct (find_pivot m 0 r c) as [p|] eqn:E.
    + destruct (pivot_step n m r c p Hrect Hc E) as [Hrect' [_ [Hzero _]]].
      specialize (IH (S r) _ (piv ++ [(r, c)])%list Hrect' Hcs Hin' (Hzero j Hj Hz)).
      rewrite length_app in IH. simpl in IH. lia.
    + specialize (IH r m piv Hrect Hcs Hin' Hz). lia.
Qed.

Lemma gauss_jordan_equal_columns (n : nat) (pre post : list nat) (r : nat) (m : mat)
    (piv : list (nat * nat)) (i j : nat) :
  rect n m -> Forall (fun c => (c < n)%nat) (pre ++ i :: post)%list -> In j post ->
  cols_equal m i j ->
  (List.length (snd (gauss_jordan (pre ++ i :: post) r m piv))
   < List.length piv + List.length (pre ++ i :: post))%nat.
Proof.
  revert r m piv. induction pre as [|c pre IH]; intros r m piv Hrect Hcols Hin He;
    simpl in *.
  - pose proof (Forall_inv Hcols) as Hi. pose proof (Forall_inv_tail Hcols) as Hcs.
    assert (Hj : (j < n)%nat) by (rewrite Forall_forall in Hcs; now apply Hcs).
    destruct (find_pivot m 0 r i) as [p|] eqn:E.
    + destruct (pivot_step n m r i p Hrect Hi E) as [Hrect' [Hzi [_ Heq]]].
      assert (Hzj : col_zero_from (eliminate (swap_rows m r p) r i) (S r) j).
      { intros t Ht. rewrite <- (Heq i j Hi Hj He t). now apply Hzi. }
      pose proof (gauss_jordan_skips_zero_column n post (S r) _
                    (piv ++ [(r, i)])%list j Hrect' Hcs Hin Hzj) as H.
      rewrite length_app in H. simpl in H. lia.
    + assert (Hzj : col_zero_from m r j).
      { intros t Ht. rewrite <- (He t).
        destruct (Nat.lt_ge_cases t (List.length m)) as [Hlt|Hge].
        - apply (find_pivot_none m 0 r i E t Hlt). simpl. exact Ht.
        - rewrite (nth_overflow m) by exact Hge. destruct i; reflexivity. }
      pose proof (gauss_jordan_skips_zero_column n post r m piv j Hrect Hcs Hin Hzj).
      lia.
  - pose proof (Forall_inv Hcols) as Hc. pose proof (Forall_inv_tail Hcols) as Hcs.
    assert (Hi : (i < n)%nat).
    { rewrite Forall_forall in Hcs. apply Hcs. apply in_or_app. right. now left. }
    assert (Hj : (j < n)%nat).
    { rewrite Forall_forall in Hcs. apply Hcs. apply in_or_app. right. now right. }
    destruct (find_pivot m 0 r c) as [p|] eqn:E.
    + destruct (pivot_step n m r c p Hrect Hc E) as [Hrect' [_ [_ Heq]]].
      specialize (IH (S r) _ (piv ++ [(r, c)])%list Hrect' Hcs Hin (Heq i j Hi Hj He)).
      rewrite length_app in IH. simpl in IH. lia.
    + specialize (IH r m piv Hrect Hcs Hin He). lia.
Qed.

(** A matrix with two identical columns has rank below its column count. *)
Lemma matrix_rank_identical_columns (X : ndarray) (i j : nat) :
  wf_ndarray X -> (i < j)%nat -> (j < snd (shape X))%nat ->
  cols_equal (rows X) i j ->
  (matrix_rank X < snd (shape X))%nat.
Proof.
  intros [_ Hc] Hij Hj He. unfold matrix_rank.
  set (n := snd (shape X)) in *.
  assert (Hsplit : seq 0 n = (seq 0 i ++ i :: seq (S i) (n - S i))%list).
  { replace n with (i + S (n - S i))%nat at 1 by lia.
    rewrite seq_app. reflexivity. }
  pose proof (gauss_jordan_equal_columns n (seq 0 i) (seq (S i) (n - S i)) 0
                (rows X) [] i j) as H.
  rewrite <- Hsplit, length_seq in H. simpl in H.
  apply H.
  - exact Hc.
  - apply Forall_forall. intros c Hin. apply in_seq in Hin. lia.
  - apply in_seq. lia.
  - exact He.
Qed.

(** *** Rank of a matrix with linearly dependent columns *)

Lemma Qsum_app (a b : list Q) : Qsum (a ++ b) == Qsum a + Qsum b.
Proof.
  induction a as [|x a IH]; simpl; [ring|]. rewrite IH. ring.
Qed.

Lemma Qsum_map_ext_in {A : Type} (f g : A -> Q) (l : list A) :
  (forall k, In k l -> f k == g k) -> Qsum (map f l) == Qsum (map g l).
Proof.
  intros H. induction l as [|k l IH]; simpl; [reflexivity|].
  rewrite IH by (intros k' Hk'; apply H; now right).
  rewrite (H k) by now left. reflexivity.
Qed.

Lemma Qsum_zero {A : Type} (f : A -> Q) (l : list A) :
  (forall k, In k l -> f k == 0) -> Qsum (map f l) == 0.
Proof.
  intros H. induction l as [|k l IH]; simpl; [reflexivity|].
  rewrite IH by (intros k' Hk'; apply H; now right).
  rewrite (H k) by now left. reflexivity.
Qed.

Lemma Qsum_single (f : nat -> Q) (n j : nat) :
  (j < n)%nat -> (forall k, (k < n)%nat -> k <> j -> f k == 0) ->
  Qsum (map f (seq 0 n)) == f j.
Proof.
  intros Hj Hz.
  replace n with (j + S (n - S j))%nat at 1 by lia.
  rewrite seq_app, map_app, Qsum_app. simpl.
  rewrite Qsum_zero by (intros k Hk; apply in_seq in Hk; apply Hz; lia).
  rewrite Qsum_zero by (intros k Hk; apply in_seq in Hk; apply Hz; lia).
  ring.
Qed.

Lemma dot_as_sum (row v : array) (n : nat) :
  List.length row = n ->
  dot row v == Qsum (map (fun k => nth k row 0 * nth k v 0) (seq 0 n)).
Proof.
  revert v n. induction row as [|x row IH]; intros v n Hn; simpl in Hn; subst n.
  - reflexivity.
  - destruct v as [|y v].
    + unfold dot. simpl combine. simpl map at 1. simpl Qsum at 1.
      symmetry. apply Qsum_zero. intros k _. destruct k; simpl; ring.
    + change (dot (x :: row) (y :: v)) with (x * y + dot row v).
      change (seq 0 (S ?len)) with (0%nat :: seq 1 len).
      rewrite <- seq_shift.
      change (map ?f (0%nat :: ?l)) with (f 0%nat :: map f l).
      change (Qsum (?a :: ?l)) with (a + Qsum l).
      rewrite map_map, (IH v (List.length row) eq_refl). reflexivity.
Qed.

Lemma dot_scaled_row (prow v : array) (d : Q) :
  dot (map (fun x => Qred (x / d)) prow) v == dot prow v / d.
Proof.
  revert v. induction prow as [|x prow IH]; intros [|y v].
  - unfold dot, Qdiv. simpl. ring.
  - unfold dot, Qdiv. simpl. ring.
  - unfold dot, Qdiv. simpl. ring.
  - change (dot (map (fun z => Qred (z / d)) (x :: prow)) (y :: v))
      with (Qred (x / d) * y + dot (map (fun z => Qred (z / d)) prow) v).
    change (dot (x :: prow) (y :: v)) with (x * y + dot prow v).
    rewrite Qred_correct, IH. unfold Qdiv. ring.
Qed.

Lemma dot_eliminated_row (row prow v : array) (a : Q) :
  List.length row = List.length prow ->
  dot (map (fun p => Qred (fst p - a * snd p)) (combine row prow)) v ==
  dot row v - a * dot prow v.
Proof.
  revert prow v. induction row as [|x row IH]; intros [|y prow] v Hlen;
    simpl in Hlen; try lia.
  - unfold dot. simpl. ring.
  - destruct v as [|z v].
    + unfold dot. simpl. ring.
    + change (dot (map (fun p => Qred (fst p - a * snd p))
                       (combine (x :: row) (y :: prow))) (z :: v))
        with (Qred (x - a * y) * z +
              dot (map (fun p => Qred (fst p - a * snd p)) (combine row prow)) v).
      change (dot (x :: row) (z :: v)) with (x * z + dot row v).
      change (dot (y :: prow) (z :: v)) with (y * z + dot prow v).
      rewrite Qred_correct, (IH prow v) by lia. ring.
Qed.

Lemma dot_nil (v : array) : dot [] v == 0.
Proof. reflexivity. Qed.

Lemma swap_rows_kernel (m : mat) (r p : nat) (v : array) :
  in_kernel m v -> in_kernel (swap_rows m r p) v.
Proof.
  intros H t. destruct (Nat.lt_ge_cases t (List.length m)) as [Ht|Ht].
  - rewrite swap_rows_nth by exact Ht.
    destruct (t =? r)%nat; [|destruct (t =? p)%nat]; apply H.
  - rewrite swap_rows_outside by exact Ht. apply dot_nil.
Qed.

Lemma eliminate_kernel (n : nat) (m : mat) (r c : nat) (v : array) :
  rect n m -> (r < List.length m)%nat ->
  in_kernel m v -> in_kernel (eliminate m r c) v.
Proof.
  intros Hrect Hr H t. destruct (Nat.lt_ge_cases t (List.length m)) as [Ht|Ht].
  - unfold eliminate. rewrite nth_map_seq by exact Ht.
    destruct (t =? r)%nat.
    + rewrite dot_scaled_row, (H r). unfold Qdiv. ring.
    + rewrite dot_eliminated_row.
      * rewrite dot_scaled_row, (H t), (H r). unfold Qdiv. ring.
      * now rewrite length_map, (rect_nth n m t Hrect Ht), (rect_nth n m r Hrect Hr).
  - rewrite eliminate_outside by exact Ht. apply dot_nil.
Qed.

Lemma pivot_step_kernel (n : nat) (m : mat) (r c p : nat) (v : array) :
  rect n m -> find_pivot m 0 r c = Some p ->
  in_kernel m v -> in_kernel (eliminate (swap_rows m r p) r c) v.
Proof.
  intros Hrect Hp H.
  destruct (find_pivot_some m 0 r c p Hp) as [_ [Hlen [Hrp _]]].
  rewrite Nat.sub_0_r in Hlen.
  apply (eliminate_kernel n).
  - apply swap_rows_rect; (assumption || lia).
  - rewrite swap_rows_length. lia.
  - now apply swap_rows_kernel.
Qed.

(** A column that the kernel vector weighs, when every other weighed column
    is already zero from row [r] on, is zero from row [r] on as well. *)
Lemma kernel_forces_zero_column (n : nat) (m : mat) (r j : nat) (v : array) :
  rect n m -> (j < n)%nat -> in_kernel m v -> ~ nth j v 0 == 0 ->
  (forall k, (k < n)%nat -> k <> j -> nth k v 0 == 0 \/ col_zero_from m r k) ->
  col_zero_from m r j.
Proof.
  intros Hrect Hj Hker Hvj Hothers t Hrt.
  destruct (Nat.lt_ge_cases t (List.length m)) as [Ht|Ht].
  - pose proof (Hker t) as Hdot.
    rewrite (dot_as_sum _ v n (rect_nth n m t Hrect Ht)) in Hdot.
    rewrite (Qsum_single _ n j Hj) in Hdot.
    + apply Qmult_integral in Hdot. destruct Hdot as [H0|H0]; [exact H0|contradiction].
    + intros k Hk Hne. destruct (Hothers k Hk Hne) as [Hv|Hz].
      * rewrite Hv. ring.
      * rewrite (Hz t Hrt). ring.
  - rewrite (nth_overflow m) by exact Ht. destruct j; reflexivity.
Qed.

Lemma no_pivot_zero_column (m : mat) (r c : nat) :
  find_pivot m 0 r c = None -> col_zero_from m r c.
Proof.
  intros E t Ht. destruct (Nat.lt_ge_cases t (List.length m)) as [Hlt|Hge].
  - apply (find_pivot_none m 0 r c E t Hlt). simpl. exact Ht.
  - rewrite (nth_overflow m) by exact Hge. destruct c; reflexivity.
Qed.

Lemma gauss_jordan_dependent_columns (n : nat) (pre post : list nat) (r : nat)
    (m : mat) (piv : list (nat * nat)) (v : array) (j : nat) :
  rect n m -> Forall (fun c => (c < n)%nat) (pre ++ j :: post)%list ->
  in_kernel m v -> ~ nth j v 0 == 0 ->
  (forall k, (k < n)%nat -> k <> j ->
             nth k v 0 == 0 \/ In k pre \/ col_zero_from m r k) ->
  (List.length (snd (gauss_jordan (pre ++ j :: post) r m piv))
   < List.length piv + List.length (pre ++ j :: post))%nat.
Proof.
  revert r m piv. induction pre as [|c pre IH]; intros r m piv Hrect Hcols Hker Hvj Hoth.
  - simpl app in *.
    assert (Hj : (j < n)%nat) by exact (Forall_inv Hcols).
    assert (Hz : col_zero_from m r j).
    { apply (kernel_forces_zero_column n m r j v Hrect Hj Hker Hvj).
      intros k Hk Hne. destruct (Hoth k Hk Hne) as [H|[H|H]]; [now left|contradiction|now right]. }
    apply (gauss_jordan_skips_zero_column n (j :: post) r m piv j Hrect Hcols);
      [now left|exact Hz].
  - simpl app in *. simpl gauss_jordan. simpl List.length.
    pose proof (Forall_inv Hcols) as Hc. pose proof (Forall_inv_tail Hcols) as Hcs.
    destruct (find_pivot m 0 r c) as [p|] eqn:E.
    + destruct (pivot_step n m r c p Hrect Hc E) as [Hrect' [Hzc [Hzero _]]].
      pose proof (pivot_step_kernel n m r c p v Hrect E Hker) as Hker'.
      specialize (IH (S r) _ (piv ++ [(r, c)])%list Hrect' Hcs Hker' Hvj).
      rewrite length_app in IH. simpl in IH.
      assert (IH' := IH ltac:(intros k Hk Hne;
                  destruct (Hoth k Hk Hne) as [H|[[H|H]|H]];
                  [now left
                  |subst k; right; right; exact Hzc
                  |right; now left
                  |right; right; now apply Hzero])).
      lia.
    + pose proof (no_pivot_zero_column m r c E) as Hzc.
      specialize (IH r m piv Hrect Hcs Hker Hvj).
      assert (IH' := IH ltac:(intros k Hk Hne;
                  destruct (Hoth k Hk Hne) as [H|[[H|H]|H]];
                  [now left
                  |subst k; right; right; exact Hzc
                  |right; now left
                  |right; now right])).
      lia.
Qed.

Lemma last_nonzero_entry (v : array) (n : nat) :
  (exists k, (k < n)%nat /\ ~ nth k v 0 == 0) ->
  exists j, (j < n)%nat /\ ~ nth j v 0 == 0 /\
            forall k, (j < k)%nat -> (k < n)%nat -> nth k v 0 == 0.
Proof.
  induction n as [|n IH]; intros [k [Hk Hv]]; [lia|].
  destruct (Qeq_dec (nth n v 0) 0) as [Hn|Hn].
  - destruct IH as [j [Hj [Hvj Hlast]]].
    + exists k. split; [|exact Hv].
      destruct (Nat.eq_dec k n) as [->|Hne]; [contradiction|lia].
    + exists j. split; [lia|]. split; [exact Hvj|].
      intros k' H1 H2. destruct (Nat.eq_dec k' n) as [->|Hne]; [exact Hn|].
      apply Hlast; lia.
  - exists n. split; [lia|]. split; [exact Hn|]. intros k' H1 H2. lia.
Qed.

(** Elimination finds every linear dependence: a well-formed matrix whose
    columns are linearly dependent has rank below its column count. *)
Lemma matrix_rank_dependent_columns (X : ndarray) :
  wf_ndarray X -> rank_deficient X -> (matrix_rank X < snd (shape X))%nat.
Proof.
  intros [_ Hc] [v [_ [Hnz Hker]]]. unfold matrix_rank.
  set (n := snd (shape X)) in *.
  destruct (last_nonzero_entry v n Hnz) as [j [Hj [Hvj Hlast]]].
  assert (Hsplit : seq 0 n = (seq 0 j ++ j :: seq (S j) (n - S j))%list).
  { replace n with (j + S (n - S j))%nat at 1 by lia.
    rewrite seq_app. reflexivity. }
  pose proof (gauss_jordan_dependent_columns n (seq 0 j) (seq (S j) (n - S j)) 0
                (rows X) [] v j) as H.
  rewrite <- Hsplit, length_seq in H. simpl in H.
  apply H.
  - exact Hc.
  - apply Forall_forall. intros c Hin. apply in_seq in Hin. lia.
  - exact Hker.
  - exact Hvj.
  - intros k Hk Hne. destruct (Nat.lt_ge_cases k j) as [Hlt|Hge].
    + right. left. apply in_seq. lia.
    + left. apply Hlast; lia.
Qed.

(** Two identical columns are a linear dependence. *)
Lemma identical_columns_rank_deficient (X : ndarray) (i j : nat) :
  wf_ndarray X -> (i < j)%nat -> (j < snd (shape X))%nat ->
  cols_equal (rows X) i j -> rank_deficient X.
Proof.
  intros [_ Hc] Hij Hj He.
  set (n := snd (shape X)) in *.
  set (w := fun k : nat => if (k =? i)%nat then 1 else if (k =? j)%nat then -1 else 0).
  exists (map w (seq 0 n)).
  split; [now rewrite length_map, length_seq|]. split.
  - exists i. split; [lia|].
    rewrite (nth_map_seq w n i 0) by lia. unfold w. rewrite Nat.eqb_refl. discriminate.
  - intros t. destruct (Nat.lt_ge_cases t (List.length (rows X))) as [Ht|Ht].
    + rewrite (dot_as_sum _ _ n (rect_nth n (rows X) t Hc Ht)).
      set (row := nth t (rows X) []).
      rewrite (Qsum_map_ext_in _
                 (fun k => row_term row i k + - row_term row j k)).
      * assert (E1 : Qsum (map (fun k => row_term row i k) (seq 0 n)) == row_term row i i).
        { apply (Qsum_single (fun k => row_term row i k) n i); [lia|].
          intros k _ Hne. unfold row_term.
          apply Nat.eqb_neq in Hne. rewrite Hne. ring. }
        assert (E2 : Qsum (map (fun k => - row_term row j k) (seq 0 n))
                     == - row_term row j j).
        { apply (Qsum_single (fun k => - row_term row j k) n j); [lia|].
          intros k _ Hne. unfold row_term.
          apply Nat.eqb_neq in Hne. rewrite Hne. ring. }
        rewrite (Qsum_map_add (fun k => row_term row i k) (fun k => - row_term row j k)).
        rewrite E1, E2. unfold row_term. rewrite !Nat.eqb_refl.
        unfold row. rewrite (He t). ring.
      * intros k Hk. apply in_seq in Hk.
        rewrite (nth_map_seq w n k 0) by lia. unfold w, row_term.
        destruct (Nat.eqb_spec k i) as [->|Hki].
        -- replace (i =? j)%nat with false by (symmetry; apply Nat.eqb_neq; lia). ring.
        -- destruct (k =? j)%nat; ring.
    + rewrite (nth_overflow (rows X)) by exact Ht. apply dot_nil.
Qed.

Example least_squares_recovers_coefficients :
  ols_contrast_estimator 2
    {| shape := (4, 2)%nat; rows := [[1; 0]; [0; 1]; [1; 1]; [1; 0]] |}
    {| shape := (4, 1)%nat; rows := [[3]; [5]; [8]; [3]] |}
    [[1; -1]]
  = Ok ({| shape := (2, 1)%nat; rows := [[3]; [5]] |}, [[-2]]).
Proof. vm_compute. reflexivity. Qed.

Example ols_rows_must_match :
  ols_contrast_estimator 2 X_collinear
    {| shape := (2, 1)%nat; rows := [[2]; [0]] |} [[1; -1]]
  = Raise ShapeMismatch.
Proof. reflexivity. Qed.

(** C2.  For every design matrix [X] that is rank-deficient - its columns
    are linearly dependent, for example two of them are identical - the OLS
    Contrast Estimator, given a response with as many rows as [X], signals
    [RankDeficiency]; it returns no coefficients, so no arbitrary
    minimum-norm solution is passed on silently. *)
Theorem ols_signals_rank_deficiency (k : nat) (X Y : ndarray)
    (contrasts : list array) :
  wf_ndarray X ->
  fst (shape X) = fst (shape Y) ->
  rank_deficient X ->
  ols_contrast_estimator k X Y contrasts = Raise RankDeficiency.
Proof.
  intros Hwf Hrows Hdef. unfold ols_contrast_estimator.
  rewrite Hrows, Nat.eqb_refl. cbn [negb].
  pose proof (matrix_rank_dependent_columns X Hwf Hdef) as Hrank.
  apply Nat.ltb_lt in Hrank. now rewrite Hrank.
Qed.

Lemma X_collinear_wf : wf_ndarray X_collinear.
Proof. split; simpl; [reflexivity|repeat constructor]. Qed.

Lemma ols_signals_rank_deficiency_witness :
  ols_contrast_estimator 2 X_collinear Y_collinear [[1; -1]] = Raise RankDeficiency.
Proof.
  apply ols_signals_rank_deficiency.
  - exact X_collinear_wf.
  - reflexivity.
  - apply (identical_columns_rank_deficient X_collinear 0 1).
    + exact X_collinear_wf.
    + lia.
    + simpl. lia.
    + intros t. destruct t as [|[|[|[|t]]]]; reflexivity.
Defined.

(* ================================================================== *)
(** * Further properties of the notebooks' cells *)

(** ** The detrending cell *)

Lemma legendre_pair_equal_points (k : nat) (x y : Q) :
  x == y ->
  fst (legendre_pair k x) == fst (legendre_pair k y) /\
  snd (legendre_pair k x) == snd (legendre_pair k y).
Proof.
  intros Hxy. induction k as [|k [IH0 IH1]].
  - split; [reflexivity|exact Hxy].
  - simpl legendre_pair.
    destruct (legendre_pair k x) as [p0 p1], (legendre_pair k y) as [q0 q1].
    simpl in *. split; [exact IH1|]. now rewrite IH0, IH1, Hxy.
Qed.

Lemma eval_legendre_equal_points (k : nat) (x y : Q) :
  x == y -> eval_legendre k x == eval_legendre k y.
Proof. intros H. now apply legendre_pair_equal_points. Qed.

Lemma Qnat_S_nonzero (k : nat) : ~ Qnat (S k) + 1 == 0.
Proof.
  pose proof (Qnat_nonneg (S k)). intros H0. lra.
Qed.

Lemma legendre_pair_at_one (k : nat) :
  fst (legendre_pair k 1) == 1 /\ snd (legendre_pair k 1) == 1.
Proof.
  induction k as [|k [IH0 IH1]].
  - split; reflexivity.
  - simpl legendre_pair. destruct (legendre_pair k 1) as [p0 p1].
    simpl in *. split; [exact IH1|]. rewrite IH0, IH1.
    fold (Qnat (S k)). field. apply Qnat_S_nonzero.
Qed.

Lemma legendre_polys_entry (n deg : nat) (m : ndarray) (t k : nat) :
  legendre_polys n deg = Ok m -> (t < n)%nat -> (k < deg)%nat ->
  entry m t k = eval_legendre k (nth t (linspace (-1) 1 n) 0).
Proof.
  intros Hm Ht Hk.
  rewrite legendre_polys_ok in Hm by lia. injection Hm as <-.
  unfold entry. simpl rows.
  rewrite (nth_map_seq _ n t []) by exact Ht.
  rewrite (nth_map_in_range _ _ 0%nat) by now rewrite length_seq.
  now rewrite seq_nth.
Qed.

Lemma linspace_first (n : nat) : (1 <= n)%nat -> nth 0 (linspace (-1) 1 n) 0 == -1.
Proof.
  intros Hn. destruct (Nat.eq_dec n 1) as [->|Hne]; [reflexivity|].
  rewrite linspace_grid by lia. change (Qnat 0) with 0. ring.
Qed.

Lemma linspace_last (n : nat) : (2 <= n)%nat -> nth (n - 1) (linspace (-1) 1 n) 0 == 1.
Proof.
  intros Hn. rewrite linspace_grid by lia.
  field. intros H. pose proof (Qnat_lt 0 (n - 1)) as H0.
  change (Qnat 0) with 0 in H0. rewrite H in H0. apply (Qlt_irrefl 0), H0. lia.
Qed.

Lemma linspace_in_range (n t : nat) :
  (t < n)%nat -> -1 <= nth t (linspace (-1) 1 n) 0 /\ nth t (linspace (-1) 1 n) 0 <= 1.
Proof.
  intros Ht. destruct (Nat.eq_dec n 1) as [->|Hne].
  - replace t with 0%nat by lia. split; discriminate.
  - rewrite linspace_grid by lia.
    assert (Hpos : 0 < Qnat (n - 1)) by (apply (Qnat_lt 0); lia).
    assert (Hle : Qnat t <= Qnat (n - 1)) by (apply Qnat_le; lia).
    pose proof (Qnat_nonneg t) as H0.
    set (u := Qnat t / Qnat (n - 1)).
    assert (Hu : Qnat t * (2 / Qnat (n - 1)) == 2 * u).
    { unfold u. field. intros H. rewrite H in Hpos. discriminate. }
    assert (Hu0 : 0 <= u).
    { unfold u. apply Qle_shift_div_l; [exact Hpos|]. now rewrite Qmult_0_l. }
    assert (Hu1 : u <= 1).
    { unfold u. apply Qle_shift_div_r; [exact Hpos|]. now rewrite Qmult_1_l. }
    rewrite Hu. split; lra.
Qed.

(** X1.  The detrending cell fails only when no polynomial is requested:
    with [degree = 0] it raises [ValueError]; with any other degree it
    returns an array with one row per timepoint and [degree] columns, and
    zero timepoints is no error. *)
Theorem legendre_polys_error_cases (n deg : nat) :
  match legendre_polys n deg with
  | Ok m => (0 < deg)%nat /\ shape m = (n, deg) /\ wf_ndarray m
  | Raise e => deg = 0%nat /\ e = ValueError
  end.
Proof.
  destruct deg as [|d].
  - rewrite legendre_polys_no_degree. split; reflexivity.
  - rewrite legendre_polys_ok by lia. split; [lia|]. split; [reflexivity|].
    split; cbn [rows shape fst snd].
    + now rewrite length_map, length_seq.
    + apply Forall_forall. intros r Hr. apply in_map_iff in Hr.
      destruct Hr as [t [<- _]]. now rewrite length_map, length_seq.
Qed.

(** X2.  From two timepoints on, the first row of the detrending array is
    the alternating signs [P_k(-1) = (-1)^k] and the last row is all ones
    ([P_k(1) = 1]): the grid really starts at [-1] and ends at [1]. *)
Theorem legendre_polys_endpoints (n deg : nat) (m : ndarray) :
  legendre_polys n deg = Ok m ->
  (2 <= n)%nat ->
  forall k, (k < deg)%nat ->
    entry m 0 k == alternating k /\ entry m (n - 1) k == 1.
Proof.
  intros Hm Hn k Hk. split.
  - rewrite (legendre_polys_entry n deg m 0 k Hm) by lia.
    rewrite (eval_legendre_equal_points k _ (-1)) by (apply linspace_first; lia).
    apply eval_legendre_at_minus_one.
  - rewrite (legendre_polys_entry n deg m (n - 1) k Hm) by lia.
    rewrite (eval_legendre_equal_points k _ 1) by (apply linspace_last; lia).
    apply legendre_pair_at_one.
Qed.

Lemma legendre_polys_endpoints_witness :
  exists m, legendre_polys 3 4 = Ok m /\ entry m 0 3 == -1 /\ entry m 2 3 == 1.
Proof.
  eexists. split; [apply legendre_polys_ok; lia|].
  apply (legendre_polys_endpoints 3 4 _ (legendre_polys_ok 3 4 ltac:(lia))); lia.
Defined.



Lemma Qsum_map_scale_l {A : Type} (f : A -> Q) (c : Q) (l : list A) :
  Qsum (map (fun k => c * f k) l) == c * Qsum (map f l).
Proof.
  induction l as [|k l IH]; simpl; [ring|]. rewrite IH. ring.
Qed.

Lemma legendre_low_degree_bounds (x : Q) (k : nat) :
  -1 <= x -> x <= 1 -> (k < 4)%nat ->
  -1 <= eval_legendre k x /\ eval_legendre k x <= 1.
Proof.
  intros Hlo Hhi Hk.
  destruct (eval_legendre_closed_forms x) as [E0 [E1 [E2 E3]]].
  destruct k as [|[|[|[|k]]]]; [| | | |lia].
  - rewrite E0. split; discriminate.
  - rewrite E1. split; assumption.
  - rewrite E2.
    assert (H : (3 * x * x - 1) / 2 == (3 # 2) * (x * x) - (1 # 2)) by field.
    rewrite H. split; nra.
  - rewrite E3.
    assert (H : (5 * x * x * x - 3 * x) / 2 == (5 # 2) * (x * x * x) - (3 # 2) * x) by field.
    rewrite H.
    assert (Hup : 0 <= (1 - x) * ((5 # 2) * (x * x) + (5 # 2) * x + 1)).
    { apply Qmult_le_0_compat; nra. }
    assert (Hdn : 0 <= (1 + x) * ((5 # 2) * (x * x) - (5 # 2) * x + 1)).
    { apply Qmult_le_0_compat; nra. }
    split; nra.
Qed.

(** X6.  With at most four polynomials requested (the notebook requests
    four) every entry of the detrending array lies in [[-1, 1]], whatever
    the number of timepoints, and the degree-0 column is the constant 1. *)
Theorem legendre_polys_unit_range (n deg : nat) (m : ndarray) :
  legendre_polys n deg = Ok m ->
  (deg <= 4)%nat ->
  forall t, (t < n)%nat ->
    entry m t 0 == 1 /\
    forall k, (k < deg)%nat -> -1 <= entry m t k /\ entry m t k <= 1.
Proof.
  intros Hm Hd t Ht.
  assert (Hpos : (0 < deg)%nat).
  { destruct deg; [|lia]. rewrite legendre_polys_no_degree in Hm. discriminate. }
  split.
  - rewrite (legendre_polys_entry n deg m t 0 Hm) by lia. reflexivity.
  - intros k Hk. rewrite (legendre_polys_entry n deg m t k Hm) by lia.
    destruct (linspace_in_range n t Ht) as [Hlo Hhi].
    apply legendre_low_degree_bounds; (assumption || lia).
Qed.

Lemma legendre_polys_unit_range_witness :
  exists m, legendre_polys 7 degree = Ok m /\ -1 <= entry m 2 3 /\ entry m 2 3 <= 1.
Proof.
  eexists. split; [apply legendre_polys_ok; unfold degree; lia|].
  apply (legendre_polys_unit_range 7 degree _
           (legendre_polys_ok 7 degree ltac:(unfold degree; lia))
           ltac:(unfold degree; lia) 2%nat ltac:(lia)).
  unfold degree. lia.
Defined.

(** ** The first-run boxcar cell and its plotting loop *)

Lemma forallb_false_exists {A : Type} (f : A -> bool) (l : list A) :
  forallb f l = false -> exists x, In x l /\ f x = false.
Proof.
  induction l as [|x l IH]; simpl; [discriminate|].
  destruct (f x) eqn:E; simpl.
  - intros H. destruct (IH H) as [y [Hy Hf]]. exists y. split; [now right|exact Hf].
  - intros _. exists x. split; [now left|exact E].
Qed.

Lemma boxcar_column_overflow (rtrs : nat) (labels : list string) (category : string)
    (e : exn) :
  boxcar_column rtrs labels category = Raise e ->
  e = IndexError /\
  exists t, nth_error labels t = Some category /\ (rtrs <= t)%nat.
Proof.
  unfold boxcar_column, setitem, zeros. destruct (forallb _ _) eqn:E; [discriminate|].
  intros H. injection H as <-. split; [reflexivity|].
  destruct (forallb_false_exists _ _ E) as [t [Hin Ht]].
  rewrite repeat_length in Ht. apply Nat.ltb_ge in Ht.
  exists t. split; [|exact Ht].
  now apply label_is_spec, labels_eq_nth, np_where_In.
Qed.

Lemma boxcar_columns_overflow (rtrs : nat) (labels cats : list string) (e : exn) :
  boxcar_columns rtrs labels cats = Raise e ->
  e = IndexError /\
  exists t c, In c cats /\ nth_error labels t = Some c /\ (rtrs <= t)%nat.
Proof.
  induction cats as [|c cats IH]; simpl; [discriminate|].
  destruct (boxcar_column rtrs labels c) as [col|e'] eqn:Ec; simpl.
  - destruct (boxcar_columns rtrs labels cats) as [cols|e''] eqn:Ecs; simpl;
      [discriminate|].
    intros H. injection H as <-. destruct (IH eq_refl) as [He [t [c' [Hc' Ht]]]].
    split; [exact He|]. exists t, c'. split; [now right|exact Ht].
  - intros H. injection H as <-.
    destruct (boxcar_column_overflow rtrs labels c e' Ec) as [He [t Ht]].
    split; [exact He|]. exists t, c. split; [now left|exact Ht].
Qed.

(** X7.  The first-run boxcar cell fails in exactly two ways.  It raises
    [ValueError] when the category list is empty.  With categories, it raises
    [IndexError] when the label and run sequences differ in length or when a
    first-run timepoint at position [run_trs] or later carries one of the
    categories.  Otherwise it returns a [run_trs x num-categories] array, and
    then every category label of the first run sits below [run_trs]. *)
Theorem boxcar_cell_error_cases (run_id : Z) (rtrs : nat) (cats stimuli : list string)
    (runs : list Z) :
  let labels := select stimuli (runs_eq_0 runs) in
  match boxcar_cell run_id rtrs cats stimuli runs with
  | Ok m =>
      cats <> [] /\ List.length stimuli = List.length runs /\
      shape m = (rtrs, List.length cats) /\
      forall t c, In c cats -> nth_error labels t = Some c -> (t < rtrs)%nat
  | Raise e =>
      (cats = [] /\ e = ValueError) \/
      (cats <> [] /\ e = IndexError /\
       (List.length stimuli <> List.length runs \/
        exists t c, In c cats /\ nth_error labels t = Some c /\ (rtrs <= t)%nat))
  end.
Proof.
  intros labels.
  destruct cats as [|c0 cats0] eqn:Ecats; [left; split; reflexivity|].
  rewrite <- Ecats. assert (Hne : cats <> []) by (rewrite Ecats; discriminate).
  destruct (Nat.eq_dec (List.length stimuli) (List.length runs)) as [Hlen|Hlen].
  - pose proof (mask_index_parallel stimuli runs Hlen) as Hsel. fold labels in Hsel.
    destruct (boxcar_columns rtrs labels cats) as [cols|e] eqn:Ecols.
    + assert (Hin : forall t c, In c cats -> label_is labels t c = true -> (t < rtrs)%nat)
        by (eapply boxcar_columns_inv; eauto).
      rewrite (boxcar_cell_ok run_id rtrs cats stimuli runs labels Hne Hsel Hin).
      split; [exact Hne|]. split; [exact Hlen|]. split; [reflexivity|].
      intros t c Hc Ht. apply (Hin t c Hc). now apply label_is_spec.
    + unfold boxcar_cell.
      rewrite (boxcar_loop_selected rtrs stimuli runs labels cats [] Hsel), Ecols.
      simpl. right. split; [exact Hne|].
      destruct (boxcar_columns_overflow rtrs labels cats e Ecols) as [He Hex].
      split; [exact He|]. right. exact Hex.
  - assert (Hsel : mask_index stimuli (runs_eq_0 runs) = Raise IndexError).
    { unfold mask_index, runs_eq_0. rewrite length_map.
      apply Nat.eqb_neq in Hlen. now rewrite Hlen. }
    unfold boxcar_cell.
    rewrite (boxcar_loop_mask_error rtrs stimuli runs cats [] IndexError Hsel Hne).
    simpl. right. split; [exact Hne|]. split; [reflexivity|]. now left.
Qed.

Lemma boxcar_count_sum (labels : list string) (c : string) (n : nat) :
  (forall t, label_is labels t c = true -> (t < n)%nat) ->
  Qsum (map (fun t => indicator (label_is labels t c)) (seq 0 n)) ==
  Qnat (count_occ string_dec labels c).
Proof.
  revert n. induction labels as [|l labels IH]; intros n Hin.
  - simpl count_occ. change (Qnat 0) with 0.
    rewrite (Qsum_map_ext_in _ (fun _ => 0)).
    + induction (seq 0 n) as [|t ts IHts]; simpl; [reflexivity|].
      rewrite IHts. reflexivity.
    + intros t _. unfold label_is. destruct t; reflexivity.
  - assert (Htail : forall n', (forall t, label_is (l :: labels) (S t) c = true ->
                                          (t < n')%nat) ->
              Qsum (map (fun t => indicator (label_is (l :: labels) (S t) c))
                        (seq 0 n')) == Qnat (count_occ string_dec labels c)).
    { intros n' H. apply IH. exact H. }
    destruct n as [|n].
    + simpl map. simpl Qsum.
      assert (Hl : l <> c).
      { intros ->. assert (H0 : (0 < 0)%nat); [|lia].
        apply Hin. unfold label_is. simpl. apply String.eqb_refl. }
      simpl count_occ. destruct (string_dec l c) as [E|_]; [contradiction|].
      rewrite <- (Htail 0%nat); [reflexivity|].
      intros t Ht. specialize (Hin (S t) Ht). lia.
    + change (seq 0 (S n)) with (0%nat :: seq 1 n). rewrite <- seq_shift.
      change (map ?f (0%nat :: ?l)) with (f 0%nat :: map f l). rewrite map_map.
      change (Qsum (?x :: ?l)) with (x + Qsum l).
      rewrite (Htail n) by (intros t Ht; specialize (Hin (S t) Ht); lia).
      simpl count_occ. unfold label_is at 1. simpl nth_error.
      destruct (string_dec l c) as [->|Hl].
      * rewrite String.eqb_refl. simpl indicator. rewrite Qnat_S. ring.
      * apply String.eqb_neq in Hl. rewrite Hl. simpl indicator. ring.
Qed.

(** X8.  Whenever the cell returns the regressors, each boxcar column sums
    to the number of first-run timepoints that carry its category. *)
Theorem boxcar_column_sum_counts (run_id : Z) (rtrs : nat) (cats stimuli : list string)
    (runs : list Z) (m : ndarray) :
  boxcar_cell run_id rtrs cats stimuli runs = Ok m ->
  forall c, (c < List.length cats)%nat ->
    Qsum (map (fun t => entry m t c) (seq 0 rtrs)) ==
    Qnat (count_occ string_dec (select stimuli (runs_eq_0 runs))
                    (nth c cats EmptyString)).
Proof.
  intros Hm c Hc. apply boxcar_cell_inv in Hm.
  destruct Hm as [labels [Hsel [Hin ->]]].
  apply mask_index_inv in Hsel. subst labels.
  set (labels := select stimuli (runs_eq_0 runs)) in *.
  rewrite (Qsum_map_ext_in _
             (fun t => indicator (label_is labels t (nth c cats EmptyString)))).
  - apply boxcar_count_sum. intros t. apply Hin. now apply nth_In.
  - intros t Ht. apply in_seq in Ht.
    rewrite boxcar_matrix_entry by (assumption || lia). reflexivity.
Qed.

Lemma boxcar_column_sum_counts_witness :
  exists m,
    boxcar_cell 0 5 ["face"; "cat"]%string
      ["rest"; "face"; "face"; "cat"; "face"]%string [0; 0; 0; 0; 1]%Z = Ok m /\
    Qsum (map (fun t => entry m t 0) (seq 0 5)) == 2.
Proof.
  eexists. split.
  - apply (boxcar_cell_ok 0 5 _ _ _ ["rest"; "face"; "face"; "cat"]%string).
    + discriminate.
    + reflexivity.
    + intros t c _ H. apply label_is_in_range in H. simpl in H. lia.
  - apply (boxcar_column_sum_counts 0 5 ["face"; "cat"]%string
             ["rest"; "face"; "face"; "cat"; "face"]%string [0; 0; 0; 0; 1]%Z).
    + vm_compute. reflexivity.
    + simpl. lia.
Defined.

Lemma list_as_map_nth {A : Type} (l : list A) (d : A) :
  map (fun t => nth t l d) (seq 0 (List.length l)) = l.
Proof.
  induction l as [|x l IH]; [reflexivity|].
  simpl List.length. change (seq 0 (S ?n)) with (0%nat :: seq 1 n).
  rewrite <- seq_shift. simpl map. rewrite map_map. simpl. now rewrite IH.
Qed.

Lemma column_stack_inv (cols : list array) (m : ndarray) :
  column_stack cols = Ok m ->
  cols <> [] /\
  exists n, Forall (fun c => List.length c = n) cols /\
            m = {| shape := (n, List.length cols);
                   rows := map (fun t => map (fun c => nth t c 0) cols) (seq 0 n) |}.
Proof.
  destruct cols as [|c0 cs]; [discriminate|]. unfold column_stack.
  destruct (forallb (fun c => (List.length c =? List.length c0)%nat) cs) eqn:E;
    [|discriminate].
  intros H. injection H as <-. split; [discriminate|].
  exists (List.length c0). split; [|reflexivity].
  constructor; [reflexivity|]. apply Forall_forall. intros c Hc.
  rewrite forallb_forall in E. now apply Nat.eqb_eq, E.
Qed.

(** Transposing a column stack. *)
Lemma column_stack_T_rows (cols : list array) (m : ndarray) :
  column_stack cols = Ok m -> rows (ndarray_T m) = cols.
Proof.
  intros H. destruct (column_stack_inv cols m H) as [_ [n [Hall ->]]].
  unfold ndarray_T, transpose. cbn [shape rows fst snd].
  transitivity (map (fun j => nth j cols []) (seq 0 (List.length cols)));
    [|apply list_as_map_nth].
  apply map_ext_in. intros j Hj. apply in_seq in Hj.
  assert (Hj' : (j < List.length cols)%nat) by exact (proj2 Hj).
  rewrite map_map.
  assert (Hlen : List.length (nth j cols []) = n).
  { rewrite Forall_forall in Hall. apply Hall, nth_In. exact Hj'. }
  transitivity (map (fun t => nth t (nth j cols []) 0) (seq 0 n));
    [|rewrite <- Hlen; apply list_as_map_nth].
  apply map_ext. intros t.
  exact (nth_map_in_range (fun c => nth t c 0) cols [] j Hj').
Qed.

(** X9.  [np.column_stack] followed by [.T] is a round trip: whenever
    stacking a list of 1-D arrays as columns succeeds, the rows of the
    transposed result are the arrays that were stacked, in order. *)
Theorem column_stack_transpose_roundtrip (cols : list array) (m : ndarray) :
  column_stack cols = Ok m ->
  rows (ndarray_T m) = cols /\
  shape (ndarray_T m) = (List.length cols, fst (shape m)).
Proof.
  intros H. split; [now apply column_stack_T_rows|].
  destruct (column_stack_inv cols m H) as [_ [n [_ ->]]]. reflexivity.
Qed.

Lemma column_stack_transpose_roundtrip_witness :
  exists m, column_stack [[1; 2; 3]; [4; 5; 6]] = Ok m /\
            rows (ndarray_T m) = [[1; 2; 3]; [4; 5; 6]].
Proof.
  eexists. split; [reflexivity|].
  apply (column_stack_transpose_roundtrip [[1; 2; 3]; [4; 5; 6]]). reflexivity.
Defined.

Lemma combine_with_map {A B : Type} (f : A -> B) (l : list A) :
  combine l (map f l) = map (fun x => (x, f x)) l.
Proof.
  induction l as [|x l IH]; simpl; [reflexivity|]. now rewrite IH.
Qed.

(** X10.  The plotting loop pairs every category with its own boxcar:
    whenever the cell returns the regressors, the triples the loop runs over
    are, in the order of the category list, the index [i], the category and
    the indicator time series of that category over [run_trs] timepoints. *)
Theorem boxcar_traces_labelled (run_id : Z) (rtrs : nat) (cats stimuli : list string)
    (runs : list Z) (m : ndarray) :
  boxcar_cell run_id rtrs cats stimuli runs = Ok m ->
  boxcar_traces cats m =
  enumerate (map (fun c =>
                    (c, map (fun t => indicator
                                        (label_is (select stimuli (runs_eq_0 runs)) t c))
                            (seq 0 rtrs)))
                 cats).
Proof.
  intros Hm. pose proof Hm as Hinv. apply boxcar_cell_inv in Hinv.
  destruct Hinv as [labels [Hsel [Hin _]]].
  pose proof (mask_index_inv _ _ _ Hsel) as E. subst labels.
  set (labels := select stimuli (runs_eq_0 runs)) in *.
  unfold boxcar_cell in Hm.
  rewrite (boxcar_loop_selected rtrs stimuli runs labels cats [] Hsel) in Hm.
  rewrite (boxcar_columns_ok rtrs labels cats Hin) in Hm. simpl in Hm.
  pose proof (column_stack_T_rows _ m Hm) as Hrows.
  unfold boxcar_traces. rewrite Hrows. f_equal. apply combine_with_map.
Qed.

Lemma boxcar_traces_labelled_witness :
  exists m,
    boxcar_cell 0 3 ["face"; "cat"]%string
      ["cat"; "face"; "rest"]%string [0; 0; 0]%Z = Ok m /\
    boxcar_traces ["face"; "cat"]%string m =
    [(0%nat, ("face"%string, [0; 1; 0])); (1%nat, ("cat"%string, [1; 0; 0]))].
Proof.
  eexists. split; [vm_compute; reflexivity|].
  apply (boxcar_traces_labelled 0 3 ["face"; "cat"]%string
           ["cat"; "face"; "rest"]%string [0; 0; 0]%Z).
  vm_compute. reflexivity.
Defined.

(* ------------------------------------------------------------------ *)
(** ** Homework 2: task timepoints and categories *)

Lemma string_leb_lt_or_eq (a b : string) :
  StringOrder.leb a b = true -> a = b \/ String_as_OT.lt a b.
Proof.
  unfold StringOrder.leb.
  destruct (String_as_OT.compare_spec a b) as [E|L|L]; auto. discriminate.
Qed.

Lemma string_lt_leb (a b : string) :
  String_as_OT.lt a b -> StringOrder.leb a b = true.
Proof.
  unfold StringOrder.leb, String_as_OT.lt. now intros ->.
Qed.

Lemma string_lt_irrefl (a : string) : ~ String_as_OT.lt a a.
Proof. apply (StrictOrder_Irreflexive a). Qed.

Lemma string_lt_trans (a b c : string) :
  String_as_OT.lt a b -> String_as_OT.lt b c -> String_as_OT.lt a c.
Proof. apply (StrictOrder_Transitive a b c). Qed.

Lemma string_leb_transitive :
  Transitive (fun a b : string => is_true (StringOrder.leb a b)).
Proof.
  intros a b c Hab Hbc. unfold is_true in *.
  destruct (string_leb_lt_or_eq a b Hab) as [->|Lab]; [exact Hbc|].
  destruct (string_leb_lt_or_eq b c Hbc) as [<-|Lbc]; [exact Hab|].
  apply string_lt_leb. now apply (string_lt_trans a b c).
Qed.

Lemma keep_changes_subset (prev : string) (l : list string) (c : string) :
  In c (keep_changes prev l) -> In c l.
Proof.
  revert prev. induction l as [|x l IH]; intros prev; simpl; [tauto|].
  destruct (String.eqb x prev); simpl; intros H.
  - right. eauto.
  - destruct H as [->|H]; [now left|right; eauto].
Qed.

Lemma keep_changes_complete (prev : string) (l : list string) (c : string) :
  In c l -> c = prev \/ In c (keep_changes prev l).
Proof.
  revert prev. induction l as [|x l IH]; intros prev; simpl; [tauto|].
  assert (Hx : x = prev \/ In x (if String.eqb x prev then keep_changes x l
                                 else x :: keep_changes x l)).
  { destruct (String.eqb_spec x prev) as [E|E]; [now left|right; now left]. }
  intros [<-|H]; [exact Hx|].
  destruct (IH x H) as [->|Hin]; [exact Hx|].
  right. destruct (String.eqb x prev); [exact Hin|now right].
Qed.

Lemma keep_changes_increasing (prev : string) (l : list string) :
  StronglySorted (fun a b => is_true (StringOrder.leb a b)) (prev :: l) ->
  StronglySorted String_as_OT.lt (keep_changes prev l) /\
  Forall (String_as_OT.lt prev) (keep_changes prev l).
Proof.
  revert prev. induction l as [|x l IH]; intros prev Hs; simpl.
  - split; constructor.
  - inversion Hs as [|p l0 Hs' Hall]; subst.
    inversion Hs' as [|x0 l1 Hs'' Hall']; subst.
    inversion Hall as [|x1 l2 Hpx Hall'']; subst.
    destruct (String.eqb_spec x prev) as [->|Hne].
    + apply IH. exact Hs'.
    + destruct (IH x Hs') as [Hsorted Hfrom].
      assert (Hlt : String_as_OT.lt prev x).
      { destruct (string_leb_lt_or_eq prev x Hpx) as [E|L]; [congruence|exact L]. }
      split.
      * constructor; assumption.
      * constructor; [exact Hlt|].
        eapply Forall_impl; [|exact Hfrom]. intros y Hy.
        now apply (string_lt_trans prev x y).
Qed.

Lemma np_unique_In (ar : list string) (c : string) :
  In c (np_unique ar) <-> In c ar.
Proof.
  unfold np_unique.
  pose proof (StringSort.Permuted_sort ar) as Hp.
  destruct (StringSort.sort ar) as [|x l].
  - split; [contradiction|]. intros H. exact (Permutation_in c Hp H).
  - split.
    + intros [<-|H].
      * apply (Permutation_in x (Permutation_sym Hp)). now left.
      * apply (Permutation_in c (Permutation_sym Hp)). right.
        eapply keep_changes_subset; eauto.
    + intros H. apply (Permutation_in c Hp) in H. destruct H as [<-|H]; [now left|].
      destruct (keep_changes_complete x l c H) as [->|Hin]; [now left|now right].
Qed.

Lemma np_unique_increasing (ar : list string) :
  StronglySorted String_as_OT.lt (np_unique ar).
Proof.
  unfold np_unique.
  pose proof (StringSort.StronglySorted_sort ar string_leb_transitive) as Hs.
  destruct (StringSort.sort ar) as [|x l]; [constructor|].
  destruct (keep_changes_increasing x l Hs) as [H1 H2]. now constructor.
Qed.

Lemma StronglySorted_filter {A : Type} (R : A -> A -> Prop) (f : A -> bool)
    (l : list A) :
  StronglySorted R l -> StronglySorted R (filter f l).
Proof.
  induction 1 as [|x l Hs IH Hall]; simpl; [constructor|].
  destruct (f x); [|exact IH]. constructor; [exact IH|].
  rewrite Forall_forall in *. intros y Hy. apply filter_In in Hy. now apply Hall.
Qed.

Lemma increasing_NoDup (l : list string) :
  StronglySorted String_as_OT.lt l -> NoDup l.
Proof.
  induction 1 as [|x l Hs IH Hall]; constructor; [|exact IH].
  intros Hin. rewrite Forall_forall in Hall.
  exact (string_lt_irrefl x (Hall x Hin)).
Qed.

Lemma increasing_unique (l1 l2 : list string) :
  StronglySorted String_as_OT.lt l1 -> StronglySorted String_as_OT.lt l2 ->
  (forall c, In c l1 <-> In c l2) -> l1 = l2.
Proof.
  intros H1. revert l2. induction H1 as [|x l1 Hs1 IH Hall1]; intros l2 H2 Hmem.
  - destruct l2 as [|y l2]; [reflexivity|].
    exfalso. apply (proj2 (Hmem y)). now left.
  - destruct H2 as [|y l2 Hs2 Hall2].
    + exfalso. apply (proj1 (Hmem x)). now left.
    + rewrite Forall_forall in Hall1, Hall2.
      assert (Hxy : x = y).
      { destruct (proj1 (Hmem x) (or_introl eq_refl)) as [E|Hx]; [now symmetry|].
        destruct (proj2 (Hmem y) (or_introl eq_refl)) as [E|Hy]; [exact E|].
        exfalso. apply (string_lt_irrefl x).
        apply (string_lt_trans x y x); [now apply Hall1|now apply Hall2]. }
      subst y. f_equal. apply IH; [exact Hs2|].
      intros c. split; intros Hc.
      * destruct (proj1 (Hmem c) (or_intror Hc)) as [E|H]; [|exact H].
        subst c. exfalso. exact (string_lt_irrefl x (Hall1 x Hc)).
      * destruct (proj2 (Hmem c) (or_intror Hc)) as [E|H]; [|exact H].
        subst c. exfalso. exact (string_lt_irrefl x (Hall2 x Hc)).
Qed.

Lemma task_categories_In (stimuli : list string) (c : string) :
  In c (Homework2.categories stimuli) <-> In c stimuli /\ c <> rest.
Proof.
  unfold Homework2.categories.
  rewrite filter_In, np_unique_In, negb_true_iff, String.eqb_neq. reflexivity.
Qed.

Lemma task_categories_increasing (stimuli : list string) :
  StronglySorted String_as_OT.lt (Homework2.categories stimuli).
Proof. apply StronglySorted_filter, np_unique_increasing. Qed.

(** X11.  The category list of homework 2 holds exactly the labels that
    occur in the session and are not the rest tag, each once, in strictly
    increasing lexicographic order. *)
Theorem task_categories_characterised (stimuli : list string) :
  (forall c, In c (Homework2.categories stimuli) <-> In c stimuli /\ c <> rest) /\
  NoDup (Homework2.categories stimuli) /\
  StronglySorted String_as_OT.lt (Homework2.categories stimuli).
Proof.
  split; [intros c; apply task_categories_In|].
  split; [apply increasing_NoDup|]; apply task_categories_increasing.
Qed.

Lemma select_as_filter {A : Type} (f : A -> bool) (a : list A) :
  select a (map f a) = filter f a.
Proof.
  induction a as [|x a IH]; simpl; [reflexivity|]. rewrite IH. reflexivity.
Qed.

Lemma select_combine {A B : Type} (a : list A) (b : list B) (mask : list bool) :
  combine (select a mask) (select b mask) = select (combine a b) mask.
Proof.
  revert b mask. induction a as [|x a IH]; intros [|y b] [|k mask]; simpl;
    try reflexivity;
    destruct k; simpl; rewrite ?combine_nil, ?IH; reflexivity.
Qed.

Lemma select_length_parallel {A B : Type} (a : list A) (b : list B) (mask : list bool) :
  List.length a = List.length b ->
  List.length (select a mask) = List.length (select b mask).
Proof.
  revert b mask. induction a as [|x a IH]; intros [|y b] [|k mask] H; simpl in *;
    try reflexivity; try lia.
  destruct k; simpl; rewrite (IH b mask) by lia; reflexivity.
Qed.

(** X12.  Masking with [task_trs] keeps labels and run indices aligned: for
    parallel label and run sequences, [stimuli_task] and [runs_task] are the
    labels and run indices of exactly the timepoints whose label is not the
    rest tag, pairwise from the same timepoint and in the original order; no
    rest label is left and every remaining label is one of the categories of
    the cell. *)
Theorem task_masking_aligned (stimuli : list string) (runs : list Z) :
  List.length stimuli = List.length runs ->
  exists labels chunks,
    Homework2.stimuli_task stimuli = Ok labels /\
    Homework2.runs_task stimuli runs = Ok chunks /\
    combine labels chunks =
      filter (fun p => negb (String.eqb (fst p) rest)) (combine stimuli runs) /\
    List.length labels = List.length chunks /\
    ~ In rest labels /\
    forall l, In l labels -> In l (Homework2.categories stimuli).
Proof.
  intros Hlen.
  exists (select stimuli (Homework2.task_trs stimuli)),
         (select runs (Homework2.task_trs stimuli)).
  assert (Hst : select stimuli (Homework2.task_trs stimuli) =
                filter (fun l => negb (String.eqb l rest)) stimuli)
    by apply select_as_filter.
  split; [|split; [|split; [|split; [|split]]]].
  - unfold Homework2.stimuli_task, mask_index, Homework2.task_trs.
    now rewrite length_map, Nat.eqb_refl.
  - unfold Homework2.runs_task, mask_index, Homework2.task_trs.
    now rewrite length_map, <- Hlen, Nat.eqb_refl.
  - rewrite select_combine. unfold Homework2.task_trs.
    clear Hst. revert runs Hlen.
    induction stimuli as [|l stimuli IH]; intros [|r runs] Hlen; simpl in *;
      try reflexivity; try lia.
    destruct (negb (String.eqb l rest)); simpl; rewrite IH by lia; reflexivity.
  - now apply select_length_parallel.
  - rewrite Hst, filter_In, negb_true_iff, String.eqb_neq. tauto.
  - intros l. rewrite Hst, filter_In, negb_true_iff, String.eqb_neq.
    intros H. now apply task_categories_In.
Qed.

Lemma task_masking_aligned_witness :
  exists labels chunks,
    Homework2.stimuli_task ["rest"; "face"; "cat"; "rest"]%string = Ok labels /\
    Homework2.runs_task ["rest"; "face"; "cat"; "rest"]%string [0; 0; 1; 1]%Z = Ok chunks /\
    combine labels chunks = [("face"%string, 0%Z); ("cat"%string, 1%Z)].
Proof.
  destruct (task_masking_aligned ["rest"; "face"; "cat"; "rest"]%string [0; 0; 1; 1]%Z)
    as [labels [chunks [H1 [H2 [H3 _]]]]]; [reflexivity|].
  exists labels, chunks. split; [exact H1|]. split; [exact H2|exact H3].
Defined.

(** With run indices of another length, [runs[task_trs]] raises. *)
Lemma runs_task_length_mismatch (stimuli : list string) (runs : list Z) :
  List.length stimuli <> List.length runs ->
  Homework2.runs_task stimuli runs = Raise IndexError.
Proof.
  intros H. unfold Homework2.runs_task, mask_index, Homework2.task_trs.
  rewrite length_map.
  replace (List.length runs =? List.length stimuli)%nat with false; [reflexivity|].
  symmetry. apply Nat.eqb_neq. congruence.
Qed.

(** X13.  On a session whose labels are the category tags and the rest tag
    and in which each of the eight categories of homework 1 occurs, the
    category list of homework 2 holds the same eight categories, in
    alphabetical order and not in the order of homework 1. *)
Theorem task_categories_alphabetical (stimuli : list string) :
  well_labelled stimuli ->
  (forall c, In c categories -> In c stimuli) ->
  Homework2.categories stimuli =
    ["bottle"; "cat"; "chair"; "face"; "house"; "scissors"; "scrambledpix"; "shoe"]%string /\
  Permutation (Homework2.categories stimuli) categories /\
  Homework2.categories stimuli <> categories.
Proof.
  intros Hwl Hall.
  pose proof (task_categories_In stimuli) as Hmem.
  pose proof (task_categories_increasing stimuli) as Hs.
  pose proof (increasing_NoDup _ Hs) as Hnd.
  assert (Hsame : forall c, In c (Homework2.categories stimuli) <-> In c categories).
  { intros c. rewrite Hmem. split.
    - intros [Hin Hne]. unfold well_labelled in Hwl. rewrite Forall_forall in Hwl.
      destruct (Hwl c Hin) as [E|H]; [contradiction|exact H].
    - intros Hc. split; [now apply Hall|].
      intros ->. now apply rest_not_category. }
  assert (E : Homework2.categories stimuli =
              ["bottle"; "cat"; "chair"; "face"; "house"; "scissors";
               "scrambledpix"; "shoe"]%string).
  { apply increasing_unique; [exact Hs| |].
    - repeat (constructor; [|repeat constructor; vm_compute; reflexivity]).
      constructor.
    - intros c. rewrite Hsame. unfold categories. simpl. tauto. }
  split; [exact E|]. split.
  - apply NoDup_Permutation; [exact Hnd|apply categories_NoDup|exact Hsame].
  - rewrite E. unfold categories. discriminate.
Qed.

Lemma task_categories_alphabetical_witness :
  Homework2.categories
    ["rest"; "scissors"; "face"; "cat"; "rest"; "shoe"; "house"; "scrambledpix";
     "bottle"; "chair"; "face"]%string =
  ["bottle"; "cat"; "chair"; "face"; "house"; "scissors"; "scrambledpix"; "shoe"]%string.
Proof.
  apply task_categories_alphabetical.
  - unfold well_labelled, rest, categories.
    repeat (constructor; [simpl; tauto|]). constructor.
  - unfold categories. simpl. intros c H.
    repeat (destruct H as [<-|H]; [tauto|]). contradiction.
Defined.

(* ------------------------------------------------------------------ *)
(** ** Homework 2: rank percentiles with ties, the rank total, monotone maps *)

Lemma average_rank_equal_values (a : array) (x y : Q) :
  x == y -> average_rank a x = average_rank a y.
Proof.
  intros Hxy. unfold average_rank, count_le, count_lt.
  assert (E1 : filter (fun z => Qle_bool z x) a = filter (fun z => Qle_bool z y) a).
  { apply filter_ext. intros z. apply eq_true_iff_eq.
    rewrite !Qle_bool_iff, Hxy. reflexivity. }
  assert (E2 : filter (fun z => Qlt_bool z x) a = filter (fun z => Qlt_bool z y) a).
  { apply filter_ext. intros z. apply eq_true_iff_eq.
    rewrite !Qlt_bool_iff, Hxy. reflexivity. }
  now rewrite E1, E2.
Qed.

(** X14.  With ties allowed, [rank_percentile] on any array still has all
    its values in (0, 100], gives equal entries equal percentiles, and is
    strictly order-preserving. *)
Theorem rank_percentile_with_ties (a : array) (i j : nat) :
  (i < List.length a)%nat -> (j < List.length a)%nat ->
  0 < nth i (rank_percentile a) 0 /\
  nth i (rank_percentile a) 0 <= 100 /\
  (nth i a 0 == nth j a 0 -> nth i (rank_percentile a) 0 == nth j (rank_percentile a) 0) /\
  (nth i a 0 < nth j a 0 -> nth i (rank_percentile a) 0 < nth j (rank_percentile a) 0).
Proof.
  intros Hi Hj.
  assert (Hn : 0 < Qnat (List.length a)) by (apply (Qnat_lt 0); lia).
  rewrite !rank_percentile_nth by assumption.
  assert (Hx : In (nth i a 0) a) by now apply nth_In.
  split; [|split; [|split]].
  - unfold Qdiv. apply Qmult_lt_0_compat; [|reflexivity].
    apply Qmult_lt_0_compat; [apply average_rank_positive|].
    now apply Qinv_lt_0_compat.
  - apply Qle_trans with (Qnat (List.length a) / Qnat (List.length a) * 100).
    + apply percent_le; [exact Hn|now apply average_rank_bound].
    + rewrite (percent_full _ Hn). apply Qle_refl.
  - intros E. now rewrite (average_rank_equal_values a _ _ E).
  - intros L. apply percent_lt; [exact Hn|now apply average_rank_increasing].
Qed.

Lemma rank_percentile_with_ties_witness :
  nth 0 (rank_percentile [2; 5; 2; 7]) 0 == nth 2 (rank_percentile [2; 5; 2; 7]) 0 /\
  nth 0 (rank_percentile [2; 5; 2; 7]) 0 < nth 1 (rank_percentile [2; 5; 2; 7]) 0.
Proof.
  split.
  - apply (rank_percentile_with_ties [2; 5; 2; 7] 0 2); simpl; try lia. reflexivity.
  - apply (rank_percentile_with_ties [2; 5; 2; 7] 0 1); simpl; try lia. reflexivity.
Defined.

Lemma nat_sum_add {A : Type} (f g : A -> nat) (l : list A) :
  nat_sum (map (fun x => (f x + g x)%nat) l) = (nat_sum (map f l) + nat_sum (map g l))%nat.
Proof.
  induction l as [|x l IH]; simpl; [reflexivity|]. rewrite IH. lia.
Qed.

Lemma nat_sum_indicator {A : Type} (p : A -> bool) (l : list A) :
  nat_sum (map (fun y => if p y then 1%nat else 0%nat) l) = List.length (filter p l).
Proof.
  induction l as [|y l IH]; simpl; [reflexivity|].
  rewrite IH. destruct (p y); reflexivity.
Qed.

Lemma nat_sum_const {A : Type} (c : nat) (l : list A) :
  nat_sum (map (fun _ => c) l) = (List.length l * c)%nat.
Proof.
  induction l as [|x l IH]; simpl; [reflexivity|]. now rewrite IH.
Qed.

(** Counting the pairs of a relation row by row or column by column. *)
Lemma count_pairs_swap (p : Q -> Q -> bool) (a b : array) :
  nat_sum (map (fun x => List.length (filter (fun y => p y x) a)) b) =
  nat_sum (map (fun y => List.length (filter (fun x => p y x) b)) a).
Proof.
  induction b as [|x b IH]; simpl.
  - now rewrite nat_sum_const, Nat.mul_0_r.
  - rewrite IH, <- (nat_sum_indicator (fun y => p y x) a), <- nat_sum_add.
    f_equal. apply map_ext. intros y. destruct (p y x); reflexivity.
Qed.

Lemma rank_counts_total (a : array) :
  (nat_sum (map (count_le a) a) + nat_sum (map (count_lt a) a))%nat =
  (List.length a * List.length a)%nat.
Proof.
  unfold count_lt.
  rewrite (count_pairs_swap (fun y x => Qlt_bool y x) a a).
  rewrite <- nat_sum_add, <- (nat_sum_const (List.length a) a).
  f_equal. apply map_ext. intros x. unfold count_le.
  rewrite <- (count_partition (fun y => Qle_bool y x) a). reflexivity.
Qed.

Lemma Qsum_Qnat {A : Type} (f : A -> nat) (l : list A) :
  Qsum (map (fun x => Qnat (f x)) l) == Qnat (nat_sum (map f l)).
Proof.
  induction l as [|x l IH]; simpl; [reflexivity|].
  rewrite IH, <- Qnat_add. reflexivity.
Qed.

Lemma Qnat_mul (n m : nat) : Qnat (n * m) == Qnat n * Qnat m.
Proof.
  unfold Qnat. rewrite Nat2Z.inj_mul. unfold Qeq, Qmult. simpl. lia.
Qed.

Lemma rankdata_sum (a : array) :
  Qsum (rankdata a) ==
  (1 # 2) * (Qnat (List.length a) * (Qnat (List.length a) + 1)).
Proof.
  unfold rankdata, average_rank.
  rewrite (Qsum_map_scale_l
             (fun x => Qnat (count_le a x) + Qnat (count_lt a x) + 1) (1 # 2)).
  rewrite (Qsum_map_add (fun x => Qnat (count_le a x) + Qnat (count_lt a x))
                        (fun _ => 1)).
  rewrite (Qsum_map_add (fun x => Qnat (count_le a x)) (fun x => Qnat (count_lt a x))).
  rewrite !Qsum_Qnat, <- Qnat_add, rank_counts_total, Qnat_mul.
  assert (E : Qsum (map (fun _ : Q => 1) a) == Qnat (List.length a)).
  { change (fun _ : Q => 1) with (fun _ : Q => Qnat 1).
    rewrite (Qsum_Qnat (fun _ => 1%nat) a), nat_sum_const, Nat.mul_1_r. reflexivity. }
  rewrite E. ring.
Qed.

(** X15.  Ties or not, the ranks [rankdata(a)] that [rank_percentile]
    rescales add up to [n (n + 1) / 2] for an array of [n] entries: the
    average method shares the ranks of tied entries without changing their
    total. *)
Theorem rankdata_total (a : array) :
  Qsum (rankdata a) == Qnat (List.length a) * (Qnat (List.length a) + 1) / 2.
Proof.
  rewrite rankdata_sum. field.
Qed.

Lemma filter_map_length {A B : Type} (p : B -> bool) (f : A -> B) (l : list A) :
  List.length (filter p (map f l)) = List.length (filter (fun x => p (f x)) l).
Proof.
  induction l as [|x l IH]; simpl; [reflexivity|].
  destruct (p (f x)); simpl; now rewrite IH.
Qed.

Lemma count_filter_ext_in (p q : Q -> bool) (l : array) :
  (forall x, In x l -> p x = q x) ->
  List.length (filter p l) = List.length (filter q l).
Proof.
  intros H. now rewrite (filter_ext_in p q l H).
Qed.

(** X16.  Rank percentiles depend only on the order of the entries:
    applying to every entry a map that preserves and reflects the order of
    the entries of the array (a positive rescaling, a shift, any strictly
    increasing transform) leaves [rank_percentile] unchanged. *)
Theorem rank_percentile_monotone_invariant (f : Q -> Q) (a : array) :
  (forall x y, In x a -> In y a -> (f x <= f y <-> x <= y)) ->
  rank_percentile (map f a) = rank_percentile a.
Proof.
  intros Hf. unfold rank_percentile, rankdata.
  rewrite length_map, !map_map. apply map_ext_in. intros x Hx.
  do 2 f_equal. unfold average_rank, count_le, count_lt.
  rewrite !filter_map_length.
  rewrite (count_filter_ext_in (fun y => Qle_bool (f y) (f x)) (fun y => Qle_bool y x)).
  - rewrite (count_filter_ext_in (fun y => Qlt_bool (f y) (f x)) (fun y => Qlt_bool y x)).
    + reflexivity.
    + intros y Hy. unfold Qlt_bool. f_equal. apply eq_true_iff_eq.
      rewrite !Qle_bool_iff. now apply Hf.
  - intros y Hy. apply eq_true_iff_eq. rewrite !Qle_bool_iff. now apply Hf.
Qed.

Lemma rank_percentile_monotone_invariant_witness :
  rank_percentile (map (fun x => 3 * x + 1) [2; -1; 5 # 2]) =
  rank_percentile [2; -1; 5 # 2].
Proof.
  apply rank_percentile_monotone_invariant.
  intros x y _ _. split; intros H; lra.
Defined.
